(** * scripts/check_go_errors.py: the wording check on [fmt.Errorf] messages

    A shallow embedding of the script: Python [str] values are lists of
    Unicode code points, the compiled regular expression is a term of a small
    regex syntax run by a backtracking matcher with Python's greedy
    semantics, [check_file] and [main] live in a monad that records the
    observable events (files opened, lines printed on either stream) and
    carries Python exceptions. *)

From Stdlib Require Import List NArith PeanoNat Bool Lia String Ascii Sorted
  Permutation.
From Stdlib Require Decimal DecimalNat.
Import ListNotations.
Local Open Scope N_scope.

Set Implicit Arguments.

(** ** Python strings *)

Module PyStr.

(** A [str] is a sequence of code points. *)
Definition char := N.
Definition str := list char.

(** A literal of the script, written as a Rocq string of ASCII characters. *)
Definition lit (s : string) : str :=
  map N_of_ascii (list_ascii_of_string s).

Definition DQUOTE : char := 34.
Definition COLON : char := 58.
Definition LF : char := 10.
Definition CR : char := 13.

(** [s.startswith(prefix)] *)
Fixpoint startswith (s prefix : str) {struct prefix} : bool :=
  match prefix with
  | [] => true
  | p :: prefix' =>
      match s with
      | [] => false
      | c :: s' => (c =? p) && startswith s' prefix'
      end
  end.

(** [c.isspace()]: the code points CPython's [_PyUnicode_IsWhitespace]
    accepts, which are the ones [str.strip()] removes. *)
Definition isspace (c : char) : bool :=
  ((9 <=? c) && (c <=? 13)) || ((28 <=? c) && (c <=? 32))
  || (c =? 133) || (c =? 160) || (c =? 5760)
  || ((8192 <=? c) && (c <=? 8202))
  || (c =? 8232) || (c =? 8233) || (c =? 8239) || (c =? 8287) || (c =? 12288).

Fixpoint lstrip (s : str) : str :=
  match s with
  | c :: s' => if isspace c then lstrip s' else s
  | [] => []
  end.

Definition rstrip (s : str) : str := rev (lstrip (rev s)).

(** [s.strip()] *)
Definition strip (s : str) : str := rstrip (lstrip s).

Definition digit_char (d : N) : char := 48 + d.

(** The decimal digits of a [Decimal.uint], most significant first. *)
Fixpoint uint_chars (u : Decimal.uint) : str :=
  match u with
  | Decimal.Nil => []
  | Decimal.D0 u' => digit_char 0 :: uint_chars u'
  | Decimal.D1 u' => digit_char 1 :: uint_chars u'
  | Decimal.D2 u' => digit_char 2 :: uint_chars u'
  | Decimal.D3 u' => digit_char 3 :: uint_chars u'
  | Decimal.D4 u' => digit_char 4 :: uint_chars u'
  | Decimal.D5 u' => digit_char 5 :: uint_chars u'
  | Decimal.D6 u' => digit_char 6 :: uint_chars u'
  | Decimal.D7 u' => digit_char 7 :: uint_chars u'
  | Decimal.D8 u' => digit_char 8 :: uint_chars u'
  | Decimal.D9 u' => digit_char 9 :: uint_chars u'
  end.

(** [str(i)] for a line counter [i] (never negative). *)
Definition str_of_int (i : nat) : str := uint_chars (Nat.to_uint i).

(** Text-mode reading with the default [newline=None]: the terminators
    LF, CR and CR LF all end a line and arrive as a single LF; a last line
    without terminator is yielded as it is.  [cur] is the line read so far. *)
Fixpoint readlines_from (cur : str) (text : str) {struct text} : list str :=
  match text with
  | [] => match cur with [] => [] | _ :: _ => [cur] end
  | c :: text' =>
      if c =? LF then (cur ++ [LF]) :: readlines_from [] text'
      else if c =? CR then
        match text' with
        | d :: text'' =>
            if d =? LF then (cur ++ [LF]) :: readlines_from [] text''
            else (cur ++ [LF]) :: readlines_from [] text'
        | [] => [cur ++ [LF]]
        end
      else readlines_from (cur ++ [c]) text'
  end.

Definition readlines (text : str) : list str := readlines_from [] text.

End PyStr.
Import PyStr.

(** ** The fragment of Python's [re] the script uses *)

Module Re.

(** A set of characters: one character, or all but one ([[^c]]). *)
Inductive cclass : Type :=
| Is (c : char)
| IsNot (c : char).

Definition accepts (cl : cclass) (c : char) : bool :=
  match cl with
  | Is a => c =? a
  | IsNot a => negb (c =? a)
  end.

Inductive regex : Type :=
| Eps
| One (cl : cclass)
| Many1 (cl : cclass)          (* [cl+], greedy *)
| Cat (r1 r2 : regex)
| Group (r : regex).           (* the capturing group, group 1 *)

(** The literal text [s]. *)
Fixpoint Lits (s : str) : regex :=
  match s with
  | [] => Eps
  | c :: s' => Cat (One (Is c)) (Lits s')
  end.

Section Matcher.
Variable A : Type.

(** Greedy [cl+] on [s]: take one character of the class, then prefer to
    take more; the continuation [k] runs on what is left, and a failure of
    [k] gives one character back. *)
Fixpoint many1 (cl : cclass) (s : str) (k : str -> option A) : option A :=
  match s with
  | [] => None
  | c :: s' =>
      if accepts cl c then
        match many1 cl s' k with
        | Some a => Some a
        | None => k s'
        end
      else None
  end.

(** Backtracking matcher in continuation-passing style: [cap] is what
    group 1 holds so far. *)
Fixpoint run (r : regex) (s : str) (cap : option str)
    (k : str -> option str -> option A) : option A :=
  match r with
  | Eps => k s cap
  | One cl =>
      match s with
      | c :: s' => if accepts cl c then k s' cap else None
      | [] => None
      end
  | Many1 cl => many1 cl s (fun s' => k s' cap)
  | Cat r1 r2 => run r1 s cap (fun s' cap' => run r2 s' cap' k)
  | Group r1 =>
      run r1 s cap
        (fun s' _ => k s' (Some (firstn (List.length s - List.length s') s)))
  end.

End Matcher.

(** A match object: where the match starts and ends in the searched string,
    and [group(1)] ([None] when the group took no part). *)
Record match_obj : Type := MkMatch {
  m_start : nat;
  m_end : nat;
  group1 : option str
}.

(** [pattern.match(s)] for [s] the text from position [pos] on. *)
Definition match_at (r : regex) (pos : nat) (s : str) : option match_obj :=
  run r s None
    (fun s' cap => Some (MkMatch pos (pos + (List.length s - List.length s')) cap)).

(** [pattern.search(s)]: the match at the leftmost position that has one. *)
Fixpoint search_from (r : regex) (pos : nat) (s : str) : option match_obj :=
  match match_at r pos s with
  | Some m => Some m
  | None =>
      match s with
      | [] => None
      | _ :: s' => search_from r (S pos) s'
      end
  end.

Definition search (r : regex) (s : str) : option match_obj :=
  search_from r 0 s.

End Re.
Import Re.

(** ** Module-level constants of the script *)

Definition REQUIRED_WORDING : str := lit "failed to".

(** The text [fmt.Errorf(] followed by the opening double quote. *)
Definition CALL_OPEN : str := lit "fmt.Errorf(" ++ [DQUOTE].

(** The compiled pattern: the literal text [fmt.Errorf(], a double quote,
    group 1 made of one or more characters other than the double quote
    (greedy), and a double quote. *)
Definition ERROR_PATTERN : regex :=
  Cat (Lits CALL_OPEN)
      (Cat (Group (Many1 (IsNot DQUOTE))) (One (Is DQUOTE))).

(** ** Effects: events, exceptions, the file system *)

Module Py.

(** What a run does that can be seen from outside. *)
Inductive event : Type :=
| Open (path : str)            (* [open(path, 'r', encoding='utf-8')] *)
| Stdout (text : str)          (* [print(text)] *)
| Stderr (text : str).         (* [print(text, file=sys.stderr)] *)

(** The exceptions that can travel through the script.  [Exception_ e] is
    any [Exception] other than [FileNotFoundError], with [str(e) = e];
    [SystemExit] is not an [Exception]. *)
Inductive exn : Type :=
| FileNotFoundError
| Exception_ (e : str)
| SystemExit (code : N).

Inductive outcome (A : Type) : Type :=
| Val (a : A)
| Raise (e : exn).
Arguments Raise {A} e.

(** A computation: the events it emits and how it ends. *)
Definition M (A : Type) : Type := (list event * outcome A)%type.

Definition ret {A} (a : A) : M A := ([], Val a).

Definition bind {A B} (m : M A) (f : A -> M B) : M B :=
  match m with
  | (t, Val a) => let (t', r) := f a in (t ++ t', r)
  | (t, Raise e) => (t, Raise e)
  end.

Definition raise {A} (e : exn) : M A := ([], Raise e).

(** [try: m except ...: h e] *)
Definition try_except {A} (m : M A) (h : exn -> M A) : M A :=
  match m with
  | (t, Val a) => (t, Val a)
  | (t, Raise e) => let (t', r) := h e in (t ++ t', r)
  end.

Definition emit (ev : event) : M unit := ([ev], Val tt).

(** The text encoding of standard output, with the default error handler
    [strict]: which characters it can encode, and the message of the
    [UnicodeEncodeError] it raises for a text holding one it cannot. *)
Record codec : Type := MkCodec {
  encodable : char -> bool;
  encode_error : str -> str
}.

(** [print(text)]: the text is encoded when it is written, so a text that
    standard output cannot encode raises and writes nothing. *)
Definition print (out : codec) (text : str) : M unit :=
  if forallb (encodable out) text then emit (Stdout text)
  else raise (Exception_ (encode_error out text)).

(** [print(text, file=sys.stderr)]: standard error escapes what it cannot
    encode (error handler [backslashreplace]) and does not raise. *)
Definition print_err (text : str) : M unit := emit (Stderr text).
Definition sys_exit {A} (code : N) : M A := raise (SystemExit code).

Definition trace {A} (m : M A) : list event := fst m.
Definition result {A} (m : M A) : outcome A := snd m.

(** What the file system answers for a path.  [File text fault] opens; its
    bytes decode to [text], after which reading fails with [e] when
    [fault = Some e] (a decoding or I/O error met while iterating). *)
Inductive file : Type :=
| Missing                                  (* [open] raises FileNotFoundError *)
| Unopenable (e : str)                     (* [open] raises another Exception *)
| File (text : str) (fault : option str).

(** An open text file, as the [for] loop sees it: the lines it yields and
    the failure it ends with, if any. *)
Record file_obj : Type := MkFile {
  f_lines : list str;
  f_fault : option str
}.

Definition open_ (fs : str -> file) (path : str) : M file_obj :=
  bind (emit (Open path)) (fun _ =>
  match fs path with
  | Missing => raise FileNotFoundError
  | Unopenable e => raise (Exception_ e)
  | File text fault => ret (MkFile (readlines text) fault)
  end).

(** The exit status of the process that ran [m] as its main program. *)
Definition exit_status {A} (m : M A) : N :=
  match result m with
  | Val _ => 0
  | Raise (SystemExit code) => code
  | Raise _ => 1
  end.


End Py.
Import Py.

Notation "x <- m ;; k" := (bind m (fun x => k))
  (at level 61, m at next level, right associativity).
Notation "m ;;; k" := (bind m (fun _ => k))
  (at level 61, right associativity).

(** ** The script *)

Section Script.

Variable fs : str -> file.
Variable out : codec.

(** The entry appended for line [i]: the f-string made of [i], a colon and
    the stripped line. *)
Definition entry (i : nat) (line : str) : str :=
  str_of_int i ++ [COLON] ++ strip line.

(** The body of [with open(...) as f: for i, line in enumerate(f, 1): ...],
    from counter [i] on, with [lines] still to come. *)
Fixpoint for_lines (i : nat) (lines : list str) (fault : option str)
    (invalid_lines : list str) : M (list str) :=
  match lines with
  | [] =>
      match fault with
      | Some e => raise (Exception_ e)
      | None => ret invalid_lines
      end
  | line :: lines' =>
      match search ERROR_PATTERN line with
      | Some m =>
          match group1 m with
          | Some error_message =>
              if negb (startswith error_message REQUIRED_WORDING)
              then for_lines (S i) lines' fault
                     (invalid_lines ++ [entry i line])
              else for_lines (S i) lines' fault invalid_lines
          | None =>
              raise (Exception_
                (lit "'NoneType' object has no attribute 'startswith'"))
          end
      | None => for_lines (S i) lines' fault invalid_lines
      end
  end.

Definition check_file (filepath : str) : M (list str) :=
  let invalid_lines := [] in
  try_except
    (f <- open_ fs filepath ;;
     for_lines 1 (f_lines f) (f_fault f) invalid_lines)
    (fun e =>
       match e with
       | FileNotFoundError =>
           print_err (lit "Error: File not found: " ++ filepath) ;;;
           ret [lit "0:File not found: " ++ filepath]
       | Exception_ e =>
           print_err (lit "Error processing file " ++ filepath
                        ++ lit ": " ++ e) ;;;
           ret [lit "0:Error processing file: " ++ e]
       | SystemExit code => raise (SystemExit code)
       end).

Definition header (path : str) : str :=
  lit "Error in " ++ path
    ++ lit ": The following error messages do not start with '"
    ++ REQUIRED_WORDING ++ lit "':".

Fixpoint print_all (errors : list str) : M unit :=
  match errors with
  | [] => ret tt
  | error_line :: errors' => print out error_line ;;; print_all errors'
  end.

(** [for path in filepaths: ...], returning the final [exit_code]. *)
Fixpoint for_paths (filepaths : list str) (exit_code : N) : M N :=
  match filepaths with
  | [] => ret exit_code
  | path :: filepaths' =>
      errors <- check_file path ;;
      match errors with
      | [] => for_paths filepaths' exit_code
      | _ :: _ =>
          print out (header path) ;;;
          print_all errors ;;;
          print out [] ;;;
          for_paths filepaths' 1
      end
  end.

Definition usage (argv0 : str) : str :=
  lit "Usage: " ++ argv0 ++ lit " <file1.go> <file2.go> ...".

(** [main()], for [sys.argv = sys_argv]. *)
Definition main (sys_argv : list str) : M unit :=
  (if (List.length sys_argv <? 2)%nat then
     match sys_argv with
     | argv0 :: _ => print out (usage argv0) ;;; sys_exit 1
     | [] => raise (Exception_ (lit "list index out of range"))
     end
   else ret tt) ;;;
  exit_code <- for_paths (tl sys_argv) 0 ;;
  sys_exit exit_code.

End Script.

(** ** Notions used to state the properties *)

(** The longest prefix of [s] whose characters satisfy [p], and the rest. *)
Fixpoint takewhile (p : char -> bool) (s : str) : str :=
  match s with
  | c :: s' => if p c then c :: takewhile p s' else []
  | [] => []
  end.

Fixpoint dropwhile (p : char -> bool) (s : str) : str :=
  match s with
  | c :: s' => if p c then dropwhile p s' else s
  | [] => []
  end.

(** The class of group 1. *)
Definition notquote : char -> bool := accepts (IsNot DQUOTE).

(** The call-site pattern occurs in [line] at position [pos] with message
    [msg]: the text from [pos] on reads [fmt.Errorf(], a double quote, the
    non-empty, quote-free [msg], and a double quote. *)
Definition occurrence (line : str) (pos : nat) (msg : str) : Prop :=
  exists pre rest,
    line = pre ++ CALL_OPEN ++ msg ++ DQUOTE :: rest /\
    List.length pre = pos /\ msg <> [] /\ ~ In DQUOTE msg.

(** The match object of an occurrence. *)
Definition match_of (pos : nat) (msg : str) : match_obj :=
  MkMatch pos (pos + (List.length CALL_OPEN + List.length msg + 1)) (Some msg).

(** The line decides a violation: its first match has a message that does
    not start with the required wording. *)
Definition violates (line : str) : bool :=
  match search ERROR_PATTERN line with
  | Some m =>
      match group1 m with
      | Some msg => negb (startswith msg REQUIRED_WORDING)
      | None => false
      end
  | None => false
  end.

(** The entries a scan of [lines], numbered from [i], ends with. *)
Fixpoint entries_from (i : nat) (lines : list str) : list str :=
  match lines with
  | [] => []
  | line :: lines' =>
      if violates line then entry i line :: entries_from (S i) lines'
      else entries_from (S i) lines'
  end.

Definition digit_of (c : char) : option (Decimal.uint -> Decimal.uint) :=
  if c =? 48 then Some Decimal.D0 else if c =? 49 then Some Decimal.D1
  else if c =? 50 then Some Decimal.D2 else if c =? 51 then Some Decimal.D3
  else if c =? 52 then Some Decimal.D4 else if c =? 53 then Some Decimal.D5
  else if c =? 54 then Some Decimal.D6 else if c =? 55 then Some Decimal.D7
  else if c =? 56 then Some Decimal.D8 else if c =? 57 then Some Decimal.D9
  else None.

(** The decimal number an entry carries before its first colon. *)
Fixpoint parse_uint (s : str) : option Decimal.uint :=
  match s with
  | [] => None
  | c :: s' =>
      if c =? COLON then Some Decimal.Nil
      else match digit_of c with
           | Some d => option_map d (parse_uint s')
           | None => None
           end
  end.

Definition entry_lineno (e : str) : option nat :=
  option_map Nat.of_uint (parse_uint e).

(** The text of an entry, after its first colon. *)
Definition entry_text (e : str) : str :=
  tl (dropwhile (fun c => negb (c =? COLON)) e).

(** The entries of a result that carry line number [n]. *)
Definition entries_at (n : nat) (res : list str) : list str :=
  filter (fun e => match entry_lineno e with
                   | Some k => Nat.eqb k n
                   | None => false
                   end) res.


(** The file cannot be opened, or reading it fails. *)
Definition unreadable (f : file) : Prop :=
  match f with
  | File _ None => False
  | _ => True
  end.

(** The file reads without error and each captured message starts with the
    required wording. *)
Definition conforming (f : file) : Prop :=
  exists text,
    f = File text None /\
    forall line m msg,
      In line (readlines text) ->
      search ERROR_PATTERN line = Some m -> group1 m = Some msg ->
      startswith msg REQUIRED_WORDING = true.

(** The file reads without error and some captured message does not start
    with the required wording. *)
Definition nonconforming (f : file) : Prop :=
  exists text line m msg,
    f = File text None /\ In line (readlines text) /\
    search ERROR_PATTERN line = Some m /\ group1 m = Some msg /\
    startswith msg REQUIRED_WORDING = false.

(** What [check_file] writes on standard error and returns for a path that
    cannot be read. *)
Definition diagnostic (path : str) (f : file) : str :=
  match f with
  | Missing => lit "Error: File not found: " ++ path
  | Unopenable e | File _ (Some e) =>
      lit "Error processing file " ++ path ++ lit ": " ++ e
  | File _ None => []
  end.

Definition synthetic (path : str) (f : file) : str :=
  match f with
  | Missing => lit "0:File not found: " ++ path
  | Unopenable e | File _ (Some e) => lit "0:Error processing file: " ++ e
  | File _ None => []
  end.

(** The scan of [path] ends without entries. *)
Definition passes (fs : str -> file) (path : str) : bool :=
  match result (check_file fs path) with
  | Val [] => true
  | _ => false
  end.

(** A double-quoted literal of Go source. *)
Definition quoted (s : string) : str := [DQUOTE] ++ lit s ++ [DQUOTE].

(** The three-line file of the end-to-end scenario, with [nl] between the
    lines and [last] after the third. *)
Definition scenario_line1 : str :=
  lit "x := fmt.Errorf(" ++ quoted "failed to read" ++ lit ")".
Definition scenario_line2 : str :=
  lit "y := fmt.Errorf(" ++ quoted "could not write" ++ lit ")".
Definition scenario_line3 : str := lit "z := 5".
Definition scenario_text (nl last : str) : str :=
  scenario_line1 ++ nl ++ scenario_line2 ++ nl ++ scenario_line3 ++ last.

(** Equality of two strings, character by character. *)
Fixpoint str_eqb (a b : str) : bool :=
  match a, b with
  | [], [] => true
  | c :: a', d :: b' => (c =? d) && str_eqb a' b'
  | _, _ => false
  end.

(** A file system holding one readable file. *)
Definition single_file (path text : str) : str -> file :=
  fun p => if str_eqb p path then File text None else Missing.

Definition BACKSLASH : char := 92.

(** The text [fmt.Errorf(] without the quote. *)
Definition CALL_NAME : str := lit "fmt.Errorf(".

(** The number of double quotes of a string. *)
Definition quotes (s : str) : nat := count_occ N.eq_dec s DQUOTE.

(** A character that is no line terminator. *)
Definition plain (c : char) : Prop := c <> LF /\ c <> CR.

(** A line as text-mode reading yields it: characters that are no
    terminators, then at most one LF. *)
Definition one_line (line : str) : Prop :=
  exists body, (line = body \/ line = body ++ [LF]) /\ Forall plain body.

(** Concrete inputs for the instances below. *)
Definition demo_path : str := lit "a.go".
Definition demo_fs : str -> file :=
  single_file demo_path (scenario_text [LF] [LF]).
Definition two_calls_line : str :=
  lit "return fmt.Errorf(" ++ quoted "failed to a"
    ++ lit "), fmt.Errorf(" ++ quoted "bad" ++ lit ")".
Definition escaped_line : str :=
  lit "e := fmt.Errorf(" ++ [DQUOTE] ++ lit "bad " ++ [BACKSLASH; DQUOTE]
    ++ lit "x" ++ [BACKSLASH; DQUOTE] ++ lit " failed to" ++ [DQUOTE]
    ++ lit ")".
Definition unterminated_line : str :=
  lit "e := fmt.Errorf(" ++ [DQUOTE] ++ lit "bad, x)".
Definition empty_call_line : str :=
  lit "return fmt.Errorf(" ++ [DQUOTE; DQUOTE] ++ lit ")" ++ [LF].
Definition empty_then_bad_line : str :=
  lit "return fmt.Errorf(" ++ [DQUOTE; DQUOTE]
    ++ lit "), fmt.Errorf(" ++ quoted "bad" ++ lit ")".
Definition unsorted_text : str :=
  scenario_line2 ++ [LF] ++ scenario_line1 ++ [LF] ++ scenario_line2.
Definition other_fs : str -> file :=
  fun p => if str_eqb p (lit "b.go") then Unopenable [] else demo_fs p.

(** The lines a run printed on standard output, and on standard error. *)
Fixpoint stdout_lines (t : list event) : list str :=
  match t with
  | Stdout text :: t' => text :: stdout_lines t'
  | _ :: t' => stdout_lines t'
  | [] => []
  end.

Fixpoint stderr_lines (t : list event) : list str :=
  match t with
  | Stderr text :: t' => text :: stderr_lines t'
  | _ :: t' => stderr_lines t'
  | [] => []
  end.

(** [unreadable], as a test. *)
Definition unreadableb (f : file) : bool :=
  match f with
  | File _ None => false
  | _ => true
  end.

(** The text of a file whose lines are [ls], each followed by the
    terminator [nl]. *)
Definition join_lines (nl : str) (ls : list str) : str :=
  List.concat (map (fun l => l ++ nl) ls).

(** The text does not begin with LF. *)
Definition no_lf_head (text : str) : Prop :=
  match text with
  | c :: _ => c <> LF
  | [] => True
  end.

(** [sub] occurs somewhere in [s]. *)
Definition contains (s sub : str) : Prop :=
  exists a b, s = a ++ sub ++ b.

(** Standard output can encode [text]. *)
Definition printable (out : codec) (text : str) : Prop :=
  forallb (encodable out) text = true.

(** The lines the driver prints on standard output for [path]: none when
    the scan returns no entry, else the header, the entries and an empty
    line. *)
Definition report (fs : str -> file) (path : str) : list str :=
  match result (check_file fs path) with
  | Val (e :: es) => header path :: (e :: es) ++ [[]]
  | _ => []
  end.

(** Of the lines [ls] printed in turn, those that get written: the ones
    before the first that standard output cannot encode, which is
    [first_bad]. *)
Fixpoint printed (out : codec) (ls : list str) : list str :=
  match ls with
  | [] => []
  | l :: ls' => if forallb (encodable out) l then l :: printed out ls' else []
  end.

Fixpoint first_bad (out : codec) (ls : list str) : option str :=
  match ls with
  | [] => None
  | l :: ls' => if forallb (encodable out) l then first_bad out ls' else Some l
  end.

(** [msg] is the message captured on [line]: that of the leftmost
    occurrence of the call-site pattern. *)
Definition captured (line msg : str) : Prop :=
  exists pos,
    occurrence line pos msg /\
    forall pos' msg', (pos' < pos)%nat -> ~ occurrence line pos' msg'.

(** [msg] starts with the required wording, written out. *)
Definition well_worded (msg : str) : Prop :=
  exists t, msg = lit "failed to" ++ t.

(** The file reads without error and every message captured on a line of
    it starts with the required wording. *)
Definition compliant (f : file) : Prop :=
  exists text,
    f = File text None /\
    forall line msg,
      In line (readlines text) -> captured line msg -> well_worded msg.

(** The file reads without error and some message captured on a line of it
    does not start with the required wording. *)
Definition offending (f : file) : Prop :=
  exists text line msg,
    f = File text None /\ In line (readlines text) /\
    captured line msg /\ ~ well_worded msg.

(** UTF-8 as the encoding of standard output: every character but the
    surrogates, with CPython's message for the first run of them. *)
Definition is_surrogate (c : char) : bool := (55296 <=? c) && (c <=? 57343).

Definition hex_digit (d : N) : char := if d <? 10 then 48 + d else 87 + d.

Definition hex4 (c : N) : str :=
  [hex_digit (c / 4096); hex_digit ((c / 256) mod 16);
   hex_digit ((c / 16) mod 16); hex_digit (c mod 16)].

Definition utf8_error (text : str) : str :=
  let start := List.length (takewhile (fun c => negb (is_surrogate c)) text) in
  let run :=
    takewhile is_surrogate
      (dropwhile (fun c => negb (is_surrogate c)) text) in
  match run with
  | [c] =>
      lit "'utf-8' codec can't encode character '\u" ++ hex4 c
        ++ lit "' in position " ++ str_of_int start
        ++ lit ": surrogates not allowed"
  | _ =>
      lit "'utf-8' codec can't encode characters in position "
        ++ str_of_int start ++ lit "-"
        ++ str_of_int (start + List.length run - 1)
        ++ lit ": surrogates not allowed"
  end.

Definition utf8 : codec :=
  MkCodec (fun c => negb (is_surrogate c)) utf8_error.

(** A path with a byte that is not UTF-8, which reaches [sys.argv] as the
    lone surrogate U+DC80. *)
Definition surrogate_path : str := lit "a" ++ [56448] ++ lit ".go".

(** The positions of [line] at which the text [fmt.Errorf(] and a double
    quote begin, from position [pos] on. *)
Fixpoint call_sites (pos : nat) (line : str) : list nat :=
  (if startswith line CALL_OPEN then [pos] else [])
  ++ match line with
     | [] => []
     | _ :: line' => call_sites (S pos) line'
     end.

Definition quoted_then_empty_line : str :=
  lit "log.Print(" ++ quoted "x" ++ lit "); return fmt.Errorf("
    ++ [DQUOTE; DQUOTE] ++ lit ")" ++ [LF].

Unset Implicit Arguments.

(** ** Strings *)

Lemma startswith_app (p t : str) : startswith (p ++ t) p = true.
Proof.
  induction p as [|c p IH]; simpl; [reflexivity|].
  now rewrite N.eqb_refl, IH.
Qed.

Lemma startswith_true (s p : str) :
  startswith s p = true -> s = p ++ skipn (List.length p) s.
Proof.
  revert s; induction p as [|c p IH]; intros [|d s]; simpl; try easy.
  intros H. apply andb_true_iff in H as [H1 H2].
  apply N.eqb_eq in H1. subst d. f_equal. now apply IH.
Qed.

Lemma startswith_iff (s p : str) :
  startswith s p = true <-> exists t, s = p ++ t.
Proof.
  split.
  - intros H. eexists. now apply startswith_true.
  - intros [t ->]. apply startswith_app.
Qed.

Lemma skipn_app_length (A : Type) (l1 l2 : list A) :
  skipn (List.length l1) (l1 ++ l2) = l2.
Proof. induction l1; simpl; auto. Qed.

Lemma takewhile_dropwhile (p : char -> bool) (s : str) :
  takewhile p s ++ dropwhile p s = s.
Proof.
  induction s as [|c s IH]; simpl; [reflexivity|].
  destruct (p c); simpl; [now rewrite IH | reflexivity].
Qed.

Lemma notquote_Forall (msg : str) :
  ~ In DQUOTE msg -> Forall (fun c => notquote c = true) msg.
Proof.
  intros H. apply Forall_forall. intros c Hc. unfold notquote; simpl.
  apply negb_true_iff, N.eqb_neq. intros ->. contradiction.
Qed.

Lemma takewhile_notquote_In (s : str) : ~ In DQUOTE (takewhile notquote s).
Proof.
  induction s as [|c s IH]; simpl; [tauto|].
  destruct (notquote c) eqn:E; simpl; [|tauto].
  intros [->|H]; [discriminate E | contradiction].
Qed.

Lemma takewhile_stop (msg rest : str) :
  ~ In DQUOTE msg -> takewhile notquote (msg ++ DQUOTE :: rest) = msg.
Proof.
  induction msg as [|c msg IH]; simpl; intros H; [reflexivity|].
  destruct (notquote c) eqn:E.
  - f_equal. apply IH. tauto.
  - unfold notquote in E; simpl in E. apply negb_false_iff, N.eqb_eq in E.
    subst c. tauto.
Qed.

Lemma dropwhile_stop (msg rest : str) :
  ~ In DQUOTE msg ->
  dropwhile notquote (msg ++ DQUOTE :: rest) = DQUOTE :: rest.
Proof.
  induction msg as [|c msg IH]; simpl; intros H; [reflexivity|].
  destruct (notquote c) eqn:E.
  - apply IH. tauto.
  - unfold notquote in E; simpl in E. apply negb_false_iff, N.eqb_eq in E.
    subst c. tauto.
Qed.

Lemma dropwhile_noquote (s : str) :
  ~ In DQUOTE s -> dropwhile notquote s = [].
Proof.
  induction s as [|c s IH]; simpl; intros H; [reflexivity|].
  destruct (notquote c) eqn:E.
  - apply IH. tauto.
  - unfold notquote in E; simpl in E. apply negb_false_iff, N.eqb_eq in E.
    subst c. tauto.
Qed.

(** ** The matcher on the compiled pattern *)

Lemma run_Lits (A : Type) (l s : str) (cap : option str)
    (k : str -> option str -> option A) :
  run (Lits l) s cap k =
  if startswith s l then k (skipn (List.length l) s) cap else None.
Proof.
  revert s; induction l as [|c l IH]; intros s; simpl; [reflexivity|].
  destruct s as [|d s]; [reflexivity|].
  destruct (d =? c); simpl; [apply IH | reflexivity].
Qed.

(** When the continuation refuses every input that begins with a character
    of the class, giving characters back never helps: greedy [cl+] is the
    continuation applied after the longest run. *)
Lemma many1_greedy (A : Type) (cl : cclass) (k : str -> option A) (s : str) :
  (forall c t, accepts cl c = true -> k (c :: t) = None) ->
  many1 cl s k =
  match takewhile (accepts cl) s with
  | [] => None
  | _ :: _ => k (dropwhile (accepts cl) s)
  end.
Proof.
  intros Hk. induction s as [|c s IH]; simpl; [reflexivity|].
  destruct (accepts cl c) eqn:E; [|reflexivity].
  rewrite IH. destruct s as [|d s]; simpl; [reflexivity|].
  destruct (accepts cl d) eqn:E'; simpl.
  - destruct (k (dropwhile (accepts cl) s)); [reflexivity|].
    now apply Hk.
  - reflexivity.
Qed.

Lemma firstn_takewhile (p : char -> bool) (s : str) :
  firstn (List.length s - List.length (dropwhile p s)) s = takewhile p s.
Proof.
  rewrite <- (takewhile_dropwhile p s) at 1 3.
  rewrite length_app, Nat.add_sub, firstn_app, Nat.sub_diag, firstn_all.
  simpl. apply app_nil_r.
Qed.

(** What [ERROR_PATTERN.match] computes, read off the text. *)
Lemma match_at_eq (pos : nat) (s : str) :
  match_at ERROR_PATTERN pos s =
  if startswith s CALL_OPEN then
    let body := skipn (List.length CALL_OPEN) s in
    match takewhile notquote body, dropwhile notquote body with
    | (_ :: _) as msg, c :: _ =>
        if c =? DQUOTE then Some (match_of pos msg) else None
    | _, _ => None
    end
  else None.
Proof.
  unfold match_at, ERROR_PATTERN. cbn [run]. rewrite run_Lits.
  destruct (startswith s CALL_OPEN) eqn:Hs; [|reflexivity].
  cbv zeta. set (body := skipn (List.length CALL_OPEN) s).
  rewrite many1_greedy.
  2:{ intros c t Hc. cbn. simpl in Hc. apply negb_true_iff in Hc.
      now rewrite Hc. }
  change (accepts (IsNot DQUOTE)) with notquote.
  pose proof (firstn_takewhile notquote body) as Hf.
  pose proof (takewhile_dropwhile notquote body) as Htd.
  destruct (takewhile notquote body) as [|c0 msg0] eqn:Et; [reflexivity|].
  destruct (dropwhile notquote body) as [|c rest] eqn:Ed; [reflexivity|].
  cbn [accepts]. destruct (c =? DQUOTE) eqn:Ec; [|reflexivity].
  rewrite Hf. unfold match_of. f_equal. f_equal.
  apply startswith_true in Hs. fold body in Hs.
  rewrite Hs at 1. rewrite <- Htd. rewrite !length_app.
  cbn [List.length]. generalize (List.length CALL_OPEN). lia.
Qed.

Lemma match_at_occurrence (pos : nat) (s : str) (m : match_obj) :
  match_at ERROR_PATTERN pos s = Some m <->
  exists msg rest,
    s = CALL_OPEN ++ msg ++ DQUOTE :: rest /\
    msg <> [] /\ ~ In DQUOTE msg /\ m = match_of pos msg.
Proof.
  rewrite match_at_eq. split.
  - destruct (startswith s CALL_OPEN) eqn:Hs; [|discriminate].
    cbv zeta. apply startswith_true in Hs.
    set (body := skipn (List.length CALL_OPEN) s) in *.
    pose proof (takewhile_dropwhile notquote body) as Htd.
    pose proof (takewhile_notquote_In body) as Hq.
    destruct (takewhile notquote body) as [|c0 msg0]; [discriminate|].
    destruct (dropwhile notquote body) as [|c rest]; [discriminate|].
    destruct (c =? DQUOTE) eqn:Ec; [|discriminate].
    apply N.eqb_eq in Ec. subst c. intros [= <-].
    exists (c0 :: msg0), rest. repeat split; auto; try discriminate.
    now rewrite Htd.
  - intros (msg & rest & -> & Hne & Hq & ->).
    rewrite startswith_app, skipn_app_length. cbv zeta.
    rewrite takewhile_stop, dropwhile_stop by assumption.
    destruct msg; [contradiction|]. now rewrite N.eqb_refl.
Qed.

Lemma match_at_None (pos : nat) (s : str) :
  match_at ERROR_PATTERN pos s = None <->
  forall msg rest,
    s = CALL_OPEN ++ msg ++ DQUOTE :: rest -> msg <> [] -> In DQUOTE msg.
Proof.
  split.
  - intros H msg rest Hs Hne.
    destruct (in_dec N.eq_dec DQUOTE msg) as [|Hn]; [assumption|].
    assert (match_at ERROR_PATTERN pos s = Some (match_of pos msg)) as E.
    { apply match_at_occurrence. now exists msg, rest. }
    congruence.
  - intros H. destruct (match_at ERROR_PATTERN pos s) as [m|] eqn:E; auto.
    apply match_at_occurrence in E as (msg & rest & Hs & Hne & Hq & _).
    exfalso. eauto.
Qed.

Local Open Scope nat_scope.

Lemma occurrence_bound (line : str) (pos : nat) (msg : str) :
  occurrence line pos msg -> pos <= List.length line.
Proof.
  intros (pre & rest & -> & <- & _). rewrite length_app. lia.
Qed.

Lemma match_at_skipn (line : str) (pos : nat) (m : match_obj) :
  pos <= List.length line ->
  (match_at ERROR_PATTERN pos (skipn pos line) = Some m <->
   exists msg, occurrence line pos msg /\ m = match_of pos msg).
Proof.
  intros Hle. rewrite match_at_occurrence. split.
  - intros (msg & rest & Hs & Hne & Hq & ->). exists msg. split; [|reflexivity].
    exists (firstn pos line), rest. repeat split; auto.
    + rewrite <- Hs. symmetry. apply firstn_skipn.
    + apply firstn_length_le, Hle.
  - intros (msg & (pre & rest & -> & <- & Hne & Hq) & ->).
    exists msg, rest. rewrite skipn_app_length. auto.
Qed.

Lemma search_from_spec (r : regex) (s : str) : forall pos,
  match search_from r pos s with
  | Some m =>
      exists n, n <= List.length s /\
        match_at r (pos + n) (skipn n s) = Some m /\
        forall j, j < n -> match_at r (pos + j) (skipn j s) = None
  | None =>
      forall n, n <= List.length s -> match_at r (pos + n) (skipn n s) = None
  end.
Proof.
  induction s as [|c s IH]; intros pos; simpl.
  - destruct (match_at r pos []) as [m|] eqn:E.
    + exists 0%nat. rewrite Nat.add_0_r. repeat split; auto. lia.
    + intros n Hn. assert (n = 0)%nat as -> by lia.
      now rewrite Nat.add_0_r.
  - destruct (match_at r pos (c :: s)) as [m|] eqn:E.
    + exists 0%nat. rewrite Nat.add_0_r. simpl. repeat split; auto; lia.
    + specialize (IH (S pos)).
      destruct (search_from r (S pos) s) as [m|].
      * destruct IH as (n & Hn & Hm & Hj). exists (S n).
        rewrite Nat.add_succ_r. simpl. repeat split; auto; [lia|].
        intros [|j] Hlt; [now rewrite Nat.add_0_r|].
        rewrite Nat.add_succ_r. simpl. apply Hj. lia.
      * intros [|n] Hn; [now rewrite Nat.add_0_r|].
        rewrite Nat.add_succ_r. simpl. apply IH. lia.
Qed.

(** [search] returns the match of the leftmost occurrence. *)
Lemma search_leftmost (line : str) (m : match_obj) :
  search ERROR_PATTERN line = Some m <->
  exists pos msg,
    occurrence line pos msg /\
    (forall pos' msg', pos' < pos -> ~ occurrence line pos' msg') /\
    m = match_of pos msg.
Proof.
  unfold search. pose proof (search_from_spec ERROR_PATTERN line 0) as H.
  split.
  - intros E. rewrite E in H. destruct H as (n & Hn & Hm & Hj).
    simpl in Hm. apply match_at_skipn in Hm as (msg & Ho & ->); [|assumption].
    exists n, msg. repeat split; auto.
    intros pos' msg' Hlt Ho'. specialize (Hj pos' Hlt). simpl in Hj.
    assert (match_at ERROR_PATTERN pos' (skipn pos' line)
            = Some (match_of pos' msg')) as E'.
    { apply match_at_skipn; [lia|]. now exists msg'. }
    congruence.
  - intros (pos & msg & Ho & Hleft & ->).
    assert (match_at ERROR_PATTERN pos (skipn pos line)
            = Some (match_of pos msg)) as Hp.
    { apply match_at_skipn; [now apply occurrence_bound in Ho|].
      now exists msg. }
    destruct (search_from ERROR_PATTERN 0 line) as [m|].
    + destruct H as (n & Hn & Hm & Hj). simpl in Hm.
      destruct (Nat.lt_trichotomy n pos) as [Hlt|[->|Hgt]].
      * apply match_at_skipn in Hm as (msg' & Ho' & _); [|assumption].
        exfalso. eapply Hleft; eauto.
      * congruence.
      * specialize (Hj pos Hgt). simpl in Hj. congruence.
    + specialize (H pos (occurrence_bound _ _ _ Ho)). simpl in H. congruence.
Qed.

Lemma search_None (line : str) :
  search ERROR_PATTERN line = None <->
  forall pos msg, ~ occurrence line pos msg.
Proof.
  unfold search. pose proof (search_from_spec ERROR_PATTERN line 0) as H.
  split.
  - intros E pos msg Ho. rewrite E in H.
    specialize (H pos (occurrence_bound _ _ _ Ho)). simpl in H.
    assert (match_at ERROR_PATTERN pos (skipn pos line)
            = Some (match_of pos msg)) as Hp.
    { apply match_at_skipn; [now apply occurrence_bound in Ho|].
      now exists msg. }
    congruence.
  - intros Hno. destruct (search_from ERROR_PATTERN 0 line) as [m|]; auto.
    destruct H as (n & Hn & Hm & _). simpl in Hm.
    apply match_at_skipn in Hm as (msg & Ho & _); [|assumption].
    exfalso. eapply Hno; eauto.
Qed.

(** Group 1 always takes part in a match of the compiled pattern. *)
Lemma search_group1 (line : str) (m : match_obj) :
  search ERROR_PATTERN line = Some m -> exists msg, group1 m = Some msg.
Proof.
  intros H. apply search_leftmost in H as (pos & msg & _ & _ & ->).
  now exists msg.
Qed.

(** ** The scan of one file *)

Lemma parse_uint_chars (u : Decimal.uint) (t : str) :
  parse_uint (uint_chars u ++ COLON :: t) = Some u.
Proof.
  induction u; simpl; try reflexivity; rewrite IHu; reflexivity.
Qed.

Lemma entry_lineno_entry (i : nat) (line : str) :
  entry_lineno (entry i line) = Some i.
Proof.
  unfold entry_lineno, entry, str_of_int. simpl app.
  rewrite parse_uint_chars. simpl. f_equal. apply DecimalNat.Unsigned.of_to.
Qed.

Lemma entry_text_entry (i : nat) (line : str) :
  entry_text (entry i line) = strip line.
Proof.
  unfold entry_text, entry, str_of_int. simpl app.
  induction (Nat.to_uint i); simpl; auto.
Qed.

Lemma violates_iff (line : str) :
  violates line = true <->
  exists m msg, search ERROR_PATTERN line = Some m /\ group1 m = Some msg /\
                startswith msg REQUIRED_WORDING = false.
Proof.
  unfold violates. split.
  - destruct (search ERROR_PATTERN line) as [m|]; [|discriminate].
    destruct (group1 m) as [msg|] eqn:G; [|discriminate].
    intros H. apply negb_true_iff in H. exists m, msg. auto.
  - intros (m & msg & -> & -> & ->). reflexivity.
Qed.

Lemma for_lines_eq (lines : list str) (fault : option str) :
  forall i acc,
    for_lines i lines fault acc =
    ([], match fault with
         | Some e => Raise (Exception_ e)
         | None => Val (acc ++ entries_from i lines)
         end).
Proof.
  induction lines as [|line lines IH]; intros i acc;
    cbn [for_lines entries_from].
  - destruct fault; [reflexivity|]. unfold ret. now rewrite app_nil_r.
  - unfold violates.
    destruct (search ERROR_PATTERN line) as [m|] eqn:E; [|apply IH].
    destruct (search_group1 _ _ E) as [msg ->].
    destruct (startswith msg REQUIRED_WORDING); cbn [negb]; rewrite IH;
      [reflexivity|].
    destruct fault; [reflexivity|]. now rewrite <- app_assoc.
Qed.

Section Scan.

Variable fs : str -> file.

Lemma check_file_readable (path text : str) :
  fs path = File text None ->
  check_file fs path = ([Open path], Val (entries_from 1 (readlines text))).
Proof.
  intros H. unfold check_file, open_. simpl. rewrite H. simpl.
  rewrite for_lines_eq. reflexivity.
Qed.

Lemma check_file_unreadable (path : str) :
  unreadable (fs path) ->
  check_file fs path =
  ([Open path; Stderr (diagnostic path (fs path))],
   Val [synthetic path (fs path)]).
Proof.
  intros H. unfold check_file, open_. simpl.
  destruct (fs path) as [|e|text [e|]]; simpl in *; try reflexivity;
    [|contradiction].
  rewrite for_lines_eq. reflexivity.
Qed.

Lemma unreadable_dec (f : file) :
  {unreadable f} + {exists text, f = File text None}.
Proof.
  destruct f as [|e|text [e|]]; simpl; auto. right. now exists text.
Qed.


Lemma passes_readable (path text : str) :
  fs path = File text None ->
  passes fs path = forallb (fun l => negb (violates l)) (readlines text).
Proof.
  intros H. unfold passes. rewrite (check_file_readable _ _ H). simpl.
  generalize 1. induction (readlines text) as [|l ls IH]; intros i; simpl.
  - reflexivity.
  - destruct (violates l); simpl; [reflexivity | apply IH].
Qed.

Lemma passes_unreadable (path : str) :
  unreadable (fs path) -> passes fs path = false.
Proof.
  intros H. unfold passes. now rewrite (check_file_unreadable _ H).
Qed.

(** ** The driver *)

Lemma bind_val (A B : Type) (t : list event) (a : A) (f : A -> M B) :
  bind (t, Val a) f = (t ++ trace (f a), result (f a)).
Proof. simpl. now destruct (f a). Qed.

Lemma bind_raise (A B : Type) (t : list event) (e : exn) (f : A -> M B) :
  bind (t, @Raise A e) f = (t, Raise e).
Proof. reflexivity. Qed.

Lemma bind_ret_l (A B : Type) (a : A) (f : A -> M B) :
  bind (ret a) f = f a.
Proof. unfold ret. rewrite bind_val. now destruct (f a). Qed.

Lemma bind_assoc (A B C : Type) (m : M A) (f : A -> M B) (g : B -> M C) :
  bind (bind m f) g = bind m (fun a => bind (f a) g).
Proof.
  destruct m as [t [a|e]]; [|reflexivity]. rewrite !bind_val.
  destruct (f a) as [t1 [b|e]]; cbn [trace result fst snd].
  - rewrite !bind_val. cbn [trace result fst snd]. now rewrite app_assoc.
  - reflexivity.
Qed.

Variable out : codec.

Lemma print_eq (text : str) :
  print out text =
  if forallb (encodable out) text then ([Stdout text], Val tt)
  else ([], Raise (Exception_ (encode_error out text))).
Proof. unfold print. now destruct (forallb (encodable out) text). Qed.

Lemma print_all_eq (ls : list str) :
  print_all out ls =
  (map Stdout (printed out ls),
   match first_bad out ls with
   | None => Val tt
   | Some l => Raise (Exception_ (encode_error out l))
   end).
Proof.
  induction ls as [|l ls IH]; [reflexivity|].
  cbn [print_all printed first_bad]. rewrite print_eq.
  destruct (forallb (encodable out) l); [|reflexivity].
  rewrite bind_val, IH. reflexivity.
Qed.

Lemma print_all_app (ls ls' : list str) :
  print_all out (ls ++ ls') = (print_all out ls ;;; print_all out ls').
Proof.
  induction ls as [|l ls IH]; cbn [app print_all].
  - now rewrite bind_ret_l.
  - now rewrite IH, bind_assoc.
Qed.

Lemma printed_all (ls : list str) :
  Forall (printable out) ls -> printed out ls = ls /\ first_bad out ls = None.
Proof.
  induction 1 as [|l ls Hl _ [IH1 IH2]]; [split; reflexivity|].
  unfold printable in Hl. cbn [printed first_bad]. rewrite Hl, IH1.
  split; [reflexivity | assumption].
Qed.

Lemma check_file_val (path : str) :
  exists errors, check_file fs path = (trace (check_file fs path), Val errors).
Proof.
  destruct (unreadable_dec (fs path)) as [H|[text H]].
  - rewrite (check_file_unreadable _ H). eexists. reflexivity.
  - rewrite (check_file_readable _ _ H). eexists. reflexivity.
Qed.

Lemma report_passes (path : str) :
  passes fs path = true -> report fs path = [].
Proof.
  unfold passes, report.
  destruct (result (check_file fs path)) as [[|e es]|e];
    [reflexivity | discriminate | discriminate].
Qed.

(** One turn of the loop: the scan, then the report when there are
    entries. *)
Lemma for_paths_step (path : str) (paths : list str) (c : N) :
  for_paths fs out (path :: paths) c =
  bind (trace (check_file fs path), Val tt)
    (fun _ => if passes fs path then for_paths fs out paths c
              else (print_all out (report fs path) ;;;
                    for_paths fs out paths 1%N)).
Proof.
  cbn [for_paths]. unfold passes, report.
  destruct (check_file_val path) as (errors & E). rewrite E.
  cbn [result trace fst snd]. rewrite !bind_val.
  destruct errors as [|e es]; [reflexivity|].
  f_equal; f_equal.
  all: change (header path :: (e :: es) ++ [[]])
         with ([header path] ++ (e :: es) ++ [[]]).
  all: rewrite !print_all_app, !bind_assoc.
  all: cbn [print_all]; rewrite !bind_assoc, !bind_ret_l; reflexivity.
Qed.

(** How the loop ends: with the exit code, or with the failure of a print
    in the turn of a path that does not pass.  The events do not depend on
    the exit code the loop starts with. *)
Lemma for_paths_shape (paths : list str) :
  exists T,
    (forall c, for_paths fs out paths c =
               (T, Val (if forallb (passes fs) paths then c else 1%N))) \/
    (forallb (passes fs) paths = false /\
     exists e, forall c, for_paths fs out paths c = (T, Raise (Exception_ e))).
Proof.
  induction paths as [|p ps (T & IH)].
  - exists []. left. reflexivity.
  - cbn [forallb]. destruct (passes fs p) eqn:P.
    + exists (trace (check_file fs p) ++ T).
      destruct IH as [IH|(F & e & IH)]; [left|right; split; [exact F|exists e]];
        intros c; rewrite for_paths_step, P, bind_val, IH; reflexivity.
    + pose proof (print_all_eq (report fs p)) as PE.
      destruct (first_bad out (report fs p)) as [l|].
      * exists (trace (check_file fs p) ++ map Stdout (printed out (report fs p))).
        right. split; [reflexivity|]. exists (encode_error out l).
        intros c. rewrite for_paths_step, P, bind_val, PE. reflexivity.
      * exists (trace (check_file fs p)
                ++ map Stdout (printed out (report fs p)) ++ T).
        destruct IH as [IH|(F & e & IH)];
          [left|right; split; [reflexivity|exists e]];
          intros c; rewrite for_paths_step, P, bind_val, PE, bind_val, IH;
          cbn [trace result fst snd]; try reflexivity.
        now destruct (forallb (passes fs) ps).
Qed.


(** When standard output can encode every report line, the loop runs to
    its end. *)
Lemma for_paths_printable (paths : list str) :
  Forall (fun p => Forall (printable out) (report fs p)) paths ->
  forall c,
    for_paths fs out paths c =
    (flat_map (fun p => trace (check_file fs p) ++ map Stdout (report fs p))
       paths,
     Val (if forallb (passes fs) paths then c else 1%N)).
Proof.
  induction 1 as [|p ps Hp _ IH]; intros c; [reflexivity|].
  rewrite for_paths_step, bind_val. cbn [flat_map forallb].
  destruct (passes fs p) eqn:P.
  - rewrite (report_passes _ P), IH. cbn [map trace result fst snd].
    now rewrite app_nil_r.
  - rewrite print_all_eq. destruct (printed_all _ Hp) as [-> ->].
    rewrite bind_val, IH. cbn [trace result fst snd].
    rewrite <- app_assoc. f_equal.
    now destruct (forallb (passes fs) ps).
Qed.

Lemma main_run (argv0 path : str) (paths : list str) :
  main fs out (argv0 :: path :: paths) =
  (exit_code <- for_paths fs out (path :: paths) 0%N ;; sys_exit exit_code).
Proof.
  unfold main. cbn [List.length Nat.ltb Nat.leb tl]. now rewrite bind_ret_l.
Qed.

(** The exit status, whether or not a print fails. *)
Lemma main_status (argv0 path : str) (paths : list str) :
  exit_status (main fs out (argv0 :: path :: paths)) =
  if forallb (passes fs) (path :: paths) then 0%N else 1%N.
Proof.
  rewrite main_run.
  destruct (for_paths_shape (path :: paths)) as (T & [H|(F & e & H)]);
    rewrite H.
  - rewrite bind_val. reflexivity.
  - rewrite bind_raise, F. reflexivity.
Qed.

Lemma main_printable (argv0 path : str) (paths : list str) :
  Forall (fun p => Forall (printable out) (report fs p)) (path :: paths) ->
  main fs out (argv0 :: path :: paths) =
  (flat_map (fun p => trace (check_file fs p) ++ map Stdout (report fs p))
     (path :: paths),
   Raise (SystemExit
            (if forallb (passes fs) (path :: paths) then 0%N else 1%N))).
Proof.
  intros H. rewrite main_run, (for_paths_printable _ H), bind_val.
  cbn [sys_exit raise trace result fst snd]. now rewrite app_nil_r.
Qed.

Lemma for_paths_app (ps qs : list str) : forall c,
  for_paths fs out (ps ++ qs) c =
  (c' <- for_paths fs out ps c ;; for_paths fs out qs c').
Proof.
  induction ps as [|p ps IH]; intros c.
  - cbn [app for_paths]. now rewrite bind_ret_l.
  - cbn [app]. rewrite !for_paths_step, bind_assoc, !bind_val.
    destruct (passes fs p).
    + now rewrite IH.
    + now rewrite bind_assoc, IH.
Qed.




End Scan.

(** ** Line numbers of the entries *)

Lemma entries_at_cons (n : nat) (e : str) (res : list str) :
  entries_at n (e :: res) =
  match entry_lineno e with
  | Some k => if Nat.eqb k n then e :: entries_at n res else entries_at n res
  | None => entries_at n res
  end.
Proof.
  unfold entries_at. simpl. destruct (entry_lineno e); reflexivity.
Qed.

Lemma entries_at_below (lines : list str) : forall i n,
  n < i -> entries_at n (entries_from i lines) = [].
Proof.
  induction lines as [|l ls IH]; intros i n Hlt; simpl; [reflexivity|].
  destruct (violates l).
  - rewrite entries_at_cons, entry_lineno_entry.
    destruct (Nat.eqb_spec i n); [lia|]. apply IH. lia.
  - apply IH. lia.
Qed.

Lemma entries_at_nth (lines : list str) : forall i j,
  entries_at (i + j) (entries_from i lines) =
  match nth_error lines j with
  | Some l => if violates l then [entry (i + j) l] else []
  | None => []
  end.
Proof.
  induction lines as [|l ls IH]; intros i j; simpl.
  - destruct j; reflexivity.
  - destruct j as [|j]; simpl.
    + rewrite Nat.add_0_r. destruct (violates l).
      * rewrite entries_at_cons, entry_lineno_entry, Nat.eqb_refl.
        f_equal. apply entries_at_below. lia.
      * apply entries_at_below. lia.
    + rewrite Nat.add_succ_r, <- Nat.add_succ_l.
      destruct (violates l); [|apply IH].
      rewrite entries_at_cons, entry_lineno_entry.
      destruct (Nat.eqb_spec i (S i + j)); [lia|]. apply IH.
Qed.

Lemma entries_from_sorted (lines : list str) : forall i,
  exists ns,
    map entry_lineno (entries_from i lines) = map Some ns /\
    StronglySorted lt ns /\
    Forall (fun n => i <= n < i + List.length lines) ns.
Proof.
  induction lines as [|l ls IH]; intros i; simpl.
  - exists []. repeat split; constructor.
  - destruct (IH (S i)) as (ns & Hm & Hs & Hb).
    destruct (violates l).
    + exists (i :: ns). simpl. rewrite entry_lineno_entry, Hm.
      repeat split; auto.
      * constructor; [assumption|].
        eapply Forall_impl; [|exact Hb]. simpl. intros; lia.
      * constructor; [lia|].
        eapply Forall_impl; [|exact Hb]. simpl. intros; lia.
    + exists ns. repeat split; auto.
      eapply Forall_impl; [|exact Hb]. simpl. intros; lia.
Qed.

Lemma entries_from_nil (lines : list str) (i : nat) :
  entries_from i lines = [] <->
  forall line, In line lines -> violates line = false.
Proof.
  revert i; induction lines as [|l ls IH]; intros i; simpl.
  - split; [intros _ ? [] | reflexivity].
  - destruct (violates l) eqn:E.
    + split; [discriminate|]. intros H.
      specialize (H l (or_introl eq_refl)). congruence.
    + rewrite IH. split.
      * intros H line [<-|Hin]; auto.
      * intros H line Hin. apply H. now right.
Qed.

Lemma violates_false (line : str) :
  violates line = false <->
  forall m msg, search ERROR_PATTERN line = Some m -> group1 m = Some msg ->
                startswith msg REQUIRED_WORDING = true.
Proof.
  split.
  - intros H m msg Hm Hg.
    destruct (startswith msg REQUIRED_WORDING) eqn:E; [reflexivity|].
    assert (violates line = true) as Ht
      by (apply violates_iff; exists m, msg; auto).
    congruence.
  - intros H. destruct (violates line) eqn:E; [|reflexivity].
    apply violates_iff in E as (m & msg & Hm & Hg & Hs).
    rewrite (H _ _ Hm Hg) in Hs. discriminate.
Qed.

Section Verdicts.

Variable fs : str -> file.

Lemma passes_conforming (path : str) :
  passes fs path = true <-> conforming (fs path).
Proof.
  destruct (unreadable_dec (fs path)) as [H|[text H]].
  - rewrite (passes_unreadable _ _ H). split; [discriminate|].
    intros (text & E & _). rewrite E in H. contradiction.
  - rewrite (passes_readable _ _ _ H), forallb_forall. split.
    + intros Hall. exists text. split; [assumption|].
      intros line m msg Hin. apply violates_false.
      apply negb_true_iff. now apply Hall.
    + intros (text' & E & Hall) line Hin. rewrite H in E.
      injection E as <-. apply negb_true_iff, violates_false.
      intros m msg. now apply Hall.
Qed.

Lemma passes_failing (path : str) :
  passes fs path = false <->
  unreadable (fs path) \/ nonconforming (fs path).
Proof.
  destruct (unreadable_dec (fs path)) as [H|[text H]].
  - rewrite (passes_unreadable _ _ H). tauto.
  - rewrite (passes_readable _ _ _ H). split.
    + intros Hf. right.
      destruct (forallb (fun l => negb (violates l)) (readlines text)) eqn:E;
        [discriminate|].
      assert (exists line, In line (readlines text) /\ violates line = true)
        as (line & Hin & Hv).
      { clear -E. induction (readlines text) as [|l ls IH]; simpl in E;
          [discriminate|].
        destruct (violates l) eqn:V; simpl in E.
        - exists l. split; [now left | assumption].
        - destruct (IH E) as (line & Hin & Hv). exists line.
          split; [now right | assumption]. }
      apply violates_iff in Hv as (m & msg & Hm & Hg & Hs).
      exists text, line, m, msg. auto.
    + intros [Hu|(text' & line & m & msg & E & Hin & Hm & Hg & Hs)].
      * rewrite H in Hu. contradiction.
      * rewrite H in E. injection E as <-.
        destruct (forallb (fun l => negb (violates l)) (readlines text)) eqn:F;
          [|reflexivity].
        rewrite forallb_forall in F. specialize (F _ Hin).
        apply negb_true_iff in F.
        assert (violates line = true) as Ht
          by (apply violates_iff; exists m, msg; auto).
        congruence.
Qed.

End Verdicts.

(** ** Lines as they are read *)

Lemma readlines_from_lines : forall n text, List.length text <= n ->
  forall cur, Forall plain cur -> Forall one_line (readlines_from cur text).
Proof.
  assert (forall cur, Forall plain cur -> one_line (cur ++ [LF])) as Hlf.
  { intros cur Hc. exists cur. auto. }
  induction n as [|n IH]; intros text Hlen cur Hcur.
  - destruct text; [|simpl in Hlen; lia]. simpl.
    destruct cur; constructor; [|constructor]. eexists; eauto.
  - destruct text as [|c text']; simpl.
    + destruct cur; constructor; [|constructor]. eexists; eauto.
    + simpl in Hlen. destruct (N.eqb_spec c LF) as [->|Hn].
      { constructor; [auto|]. apply IH; [lia | constructor]. }
      destruct (N.eqb_spec c CR) as [->|Hr].
      * destruct text' as [|d text'']; [repeat constructor; auto|].
        simpl in Hlen.
        destruct (d =? LF)%N; (constructor; [auto|]);
          apply IH; simpl; try lia; constructor.
      * apply IH; [lia|]. apply Forall_app. split; [assumption|].
        repeat constructor; assumption.
Qed.

Lemma readlines_one_line (text line : str) :
  In line (readlines text) -> one_line line.
Proof.
  intros Hin.
  pose proof (readlines_from_lines (List.length text) text (le_n _) []
                (Forall_nil _)) as H.
  rewrite Forall_forall in H. now apply H.
Qed.

(** Every character of a line but the last is plain. *)
Lemma one_line_inner (line a b : str) (c : char) :
  one_line line -> line = a ++ c :: b -> b <> [] -> plain c.
Proof.
  intros (body & [->| ->] & Hb) E Hne; rewrite Forall_forall in Hb.
  - apply Hb. rewrite E. apply in_elt.
  - destruct (exists_last Hne) as (b' & x & ->).
    change (a ++ c :: b' ++ [x]) with (a ++ (c :: b') ++ [x]) in E.
    rewrite app_assoc in E. apply app_inj_tail in E as [-> _].
    apply Hb. apply in_elt.
Qed.

Lemma capture_plain (line pre msg rest : str) :
  one_line line -> line = pre ++ CALL_OPEN ++ msg ++ DQUOTE :: rest ->
  ~ In LF msg /\ ~ In CR msg.
Proof.
  intros Hl E.
  assert (forall c, In c msg -> plain c) as Hp.
  { intros c Hc. apply in_split in Hc as (m1 & m2 & ->).
    apply (one_line_inner line (pre ++ CALL_OPEN ++ m1)
             (m2 ++ DQUOTE :: rest) c Hl).
    - rewrite E, <- !app_assoc. reflexivity.
    - destruct m2; discriminate. }
  split; intros H; apply Hp in H; destruct H; congruence.
Qed.

(** ** What lies beyond the closing quote *)

Lemma startswith_app_long (p a x : str) :
  List.length p <= List.length a ->
  startswith (a ++ x) p = startswith a p.
Proof.
  revert a; induction p as [|c p IH]; intros a H; [reflexivity|].
  destruct a as [|d a]; simpl in *; [lia|].
  rewrite IH by lia. reflexivity.
Qed.

Lemma takewhile_app_quote (a b : str) :
  takewhile notquote (a ++ DQUOTE :: b) = takewhile notquote a.
Proof.
  induction a as [|c a IH]; simpl; [reflexivity|].
  destruct (notquote c); [now rewrite IH | reflexivity].
Qed.

Lemma dropwhile_app_quote (a b : str) :
  dropwhile notquote (a ++ DQUOTE :: b) = dropwhile notquote a ++ DQUOTE :: b.
Proof.
  induction a as [|c a IH]; simpl; [reflexivity|].
  destruct (notquote c); [apply IH | reflexivity].
Qed.

(** A match attempt reads no further than the first double quote that
    follows the opening text. *)
Lemma match_at_stable (pos : nat) (a b b' : str) :
  List.length CALL_OPEN <= List.length a ->
  match_at ERROR_PATTERN pos (a ++ DQUOTE :: b) =
  match_at ERROR_PATTERN pos (a ++ DQUOTE :: b').
Proof.
  intros H. rewrite !match_at_eq, !startswith_app_long by assumption.
  destruct (startswith a CALL_OPEN); [|reflexivity]. cbv zeta.
  rewrite !skipn_app.
  replace (List.length CALL_OPEN - List.length a) with 0 by lia.
  cbn [skipn]. rewrite !takewhile_app_quote, !dropwhile_app_quote.
  destruct (takewhile notquote (skipn (List.length CALL_OPEN) a));
    [reflexivity|].
  destruct (dropwhile notquote (skipn (List.length CALL_OPEN) a));
    reflexivity.
Qed.

Lemma search_from_stable (pre msg rest rest' : str) : forall pos,
  msg <> [] -> ~ In DQUOTE msg ->
  search_from ERROR_PATTERN pos (pre ++ CALL_OPEN ++ msg ++ DQUOTE :: rest) =
  search_from ERROR_PATTERN pos (pre ++ CALL_OPEN ++ msg ++ DQUOTE :: rest').
Proof.
  intros pos Hne Hq. revert pos.
  induction pre as [|c pre IH]; intros pos.
  - assert (forall r, search_from ERROR_PATTERN pos
                        ([] ++ CALL_OPEN ++ msg ++ DQUOTE :: r)
                      = Some (match_of pos msg)) as E.
    { intros r. simpl app.
      assert (match_at ERROR_PATTERN pos
                (lit "fmt.Errorf(" ++ [DQUOTE] ++ msg ++ DQUOTE :: r)
              = Some (match_of pos msg)) as M.
      { apply match_at_occurrence. exists msg, r. auto. }
      destruct msg; [contradiction|].
      unfold search_from. simpl app in *. now rewrite M. }
    now rewrite !E.
  - assert (forall r, c :: pre ++ CALL_OPEN ++ msg ++ DQUOTE :: r
                      = (c :: pre ++ CALL_OPEN ++ msg) ++ DQUOTE :: r) as A.
    { intros r. simpl. now rewrite <- !app_assoc. }
    assert (match_at ERROR_PATTERN pos
              (c :: pre ++ CALL_OPEN ++ msg ++ DQUOTE :: rest)
            = match_at ERROR_PATTERN pos
                (c :: pre ++ CALL_OPEN ++ msg ++ DQUOTE :: rest')) as M.
    { rewrite !A. apply match_at_stable.
      simpl. rewrite !length_app. simpl. lia. }
    cbn [app search_from]. rewrite M, IH. reflexivity.
Qed.

(** ** Counting double quotes *)

Lemma quotes_app (a b : str) : quotes (a ++ b) = quotes a + quotes b.
Proof. apply count_occ_app. Qed.

Lemma quotes_cons (b : str) : quotes (DQUOTE :: b) = S (quotes b).
Proof. unfold quotes. simpl. destruct (N.eq_dec DQUOTE DQUOTE); congruence. Qed.

Lemma quotes_zero (a : str) : ~ In DQUOTE a <-> quotes a = 0.
Proof. apply count_occ_not_In. Qed.

Lemma quotes_CALL_OPEN : quotes CALL_OPEN = 1.
Proof. reflexivity. Qed.

Lemma first_quote_unique (a1 r1 a2 r2 : str) :
  ~ In DQUOTE a1 -> ~ In DQUOTE a2 ->
  a1 ++ DQUOTE :: r1 = a2 ++ DQUOTE :: r2 -> a1 = a2 /\ r1 = r2.
Proof.
  revert a2; induction a1 as [|c a1 IH]; intros [|d a2] H1 H2 E;
    simpl in *.
  - injection E as ->. auto.
  - injection E as <- _. tauto.
  - injection E as -> _. tauto.
  - injection E as -> E. destruct (IH a2) as [-> ->]; auto.
Qed.

Lemma first_quote_split (s : str) :
  In DQUOTE s -> exists x y, s = x ++ DQUOTE :: y /\ ~ In DQUOTE x.
Proof.
  induction s as [|c s IH]; intros Hin; [destruct Hin|].
  destruct (N.eq_dec c DQUOTE) as [->|Hc].
  - exists [], s. auto.
  - destruct Hin as [->|Hin]; [contradiction|].
    destruct (IH Hin) as (x & y & -> & Hx). exists (c :: x), y.
    split; [reflexivity|]. intros [E|E]; auto.
Qed.

Lemma call_open_split (p r : str) :
  p ++ CALL_OPEN ++ r = (p ++ CALL_NAME) ++ DQUOTE :: r.
Proof.
  unfold CALL_OPEN, CALL_NAME. now rewrite <- !app_assoc.
Qed.

Lemma call_name_plain (p : str) :
  ~ In DQUOTE p -> ~ In DQUOTE (p ++ CALL_NAME).
Proof.
  rewrite !quotes_zero, quotes_app. intros ->. reflexivity.
Qed.

(** Before a call site whose left context has no double quote, no
    occurrence begins. *)
Lemma occurrence_after_plain_context (pre w : str) (pos : nat) (msg : str) :
  ~ In DQUOTE pre ->
  occurrence (pre ++ CALL_OPEN ++ w) pos msg -> List.length pre <= pos.
Proof.
  intros Hq (pre0 & rest0 & E & <- & _).
  rewrite !call_open_split in E.
  destruct (in_dec N.eq_dec DQUOTE pre0) as [Hin|Hn].
  - apply first_quote_split in Hin as (x & y & -> & Hx).
    rewrite <- !app_assoc in E. rewrite (app_assoc pre) in E.
    cbn [app] in E.
    apply first_quote_unique in E as [E _];
      [|now apply call_name_plain | assumption].
    rewrite <- E, !length_app. lia.
  - apply first_quote_unique in E as [E _]; try now apply call_name_plain.
    apply app_inv_tail in E. now subst.
Qed.

(** After a call site whose literal never closes, no occurrence begins,
    nor at the site itself. *)
Lemma occurrence_unterminated (pre body : str) (pos : nat) (msg : str) :
  ~ In DQUOTE body ->
  occurrence (pre ++ CALL_OPEN ++ body) pos msg -> pos < List.length pre.
Proof.
  intros Hb (pre0 & rest0 & E & <- & _).
  apply quotes_zero in Hb.
  destruct (Nat.lt_ge_cases (List.length pre0) (List.length pre))
    as [|Hge]; [assumption|exfalso].
  apply app_eq_app in E as (l & [[E1 E2]|[E1 E2]]).
  - apply (f_equal (@List.length _)) in E1. rewrite length_app in E1.
    destruct l; [|simpl in E1; lia]. rewrite app_nil_l in E2.
    apply (f_equal quotes) in E2.
    rewrite !quotes_app, quotes_cons, quotes_CALL_OPEN in E2. lia.
  - apply (f_equal quotes) in E2.
    rewrite !quotes_app, quotes_cons, quotes_CALL_OPEN in E2. lia.
Qed.

Lemma search_unterminated (pre body : str) :
  ~ In DQUOTE pre -> ~ In DQUOTE body ->
  search ERROR_PATTERN (pre ++ CALL_OPEN ++ body) = None.
Proof.
  intros Hp Hb. apply search_None. intros pos msg Ho.
  pose proof (occurrence_unterminated _ _ _ _ Hb Ho).
  pose proof (occurrence_after_plain_context _ _ _ _ Hp Ho). lia.
Qed.

Lemma match_at_empty_literal (pos : nat) (post : str) :
  match_at ERROR_PATTERN pos (CALL_OPEN ++ DQUOTE :: post) = None.
Proof.
  rewrite match_at_eq, startswith_app, skipn_app_length. reflexivity.
Qed.

Lemma search_empty_literal (pre post : str) :
  ~ In DQUOTE pre -> ~ In DQUOTE post ->
  search ERROR_PATTERN (pre ++ CALL_OPEN ++ DQUOTE :: post) = None.
Proof.
  intros Hp Hq. apply search_None. intros pos msg Ho.
  pose proof (occurrence_after_plain_context _ _ _ _ Hp Ho) as Hle.
  destruct Ho as (pre0 & rest0 & E & <- & Hne & Hm).
  pose proof E as Eq. apply (f_equal quotes) in Eq.
  rewrite !quotes_app, !quotes_cons, quotes_CALL_OPEN in Eq.
  apply quotes_zero in Hp, Hq. 
  assert (quotes pre0 = 0) as Hp0 by lia. apply quotes_zero in Hp0.
  apply quotes_zero in Hp.
  rewrite !call_open_split in E.
  apply first_quote_unique in E as [_ E]; try now apply call_name_plain.
  destruct msg as [|c msg]; [contradiction|].
  injection E as <- _. apply Hm. now left.
Qed.

(** ** The captured message, stated on the text *)

Lemma captured_iff (line msg : str) :
  captured line msg <->
  exists m, search ERROR_PATTERN line = Some m /\ group1 m = Some msg.
Proof.
  split.
  - intros (pos & Ho & Hleft). exists (match_of pos msg).
    split; [|reflexivity]. apply search_leftmost. exists pos, msg. auto.
  - intros (m & Hm & Hg).
    apply search_leftmost in Hm as (pos & msg' & Ho & Hleft & ->).
    injection Hg as <-. now exists pos.
Qed.

Lemma well_worded_iff (msg : str) :
  well_worded msg <-> startswith msg REQUIRED_WORDING = true.
Proof. symmetry. apply startswith_iff. Qed.

Lemma violates_captured (line : str) :
  violates line = true <->
  exists msg, captured line msg /\ ~ well_worded msg.
Proof.
  rewrite violates_iff. split.
  - intros (m & msg & Hm & Hg & Hs). exists msg. split.
    + apply captured_iff. now exists m.
    + rewrite well_worded_iff. congruence.
  - intros (msg & Hc & Hw). apply captured_iff in Hc as (m & Hm & Hg).
    exists m, msg. repeat split; auto.
    rewrite well_worded_iff in Hw.
    now destruct (startswith msg REQUIRED_WORDING).
Qed.

Lemma compliant_iff (f : file) : compliant f <-> conforming f.
Proof.
  split; intros (text & E & H); exists text; (split; [exact E|]).
  - intros line m msg Hin Hm Hg. apply well_worded_iff, (H line); auto.
    apply captured_iff. now exists m.
  - intros line msg Hin Hc. apply captured_iff in Hc as (m & Hm & Hg).
    apply well_worded_iff. now apply (H line m).
Qed.

Lemma offending_iff (f : file) : offending f <-> nonconforming f.
Proof.
  split.
  - intros (text & line & msg & E & Hin & Hc & Hw).
    apply captured_iff in Hc as (m & Hm & Hg).
    exists text, line, m, msg. repeat split; auto.
    rewrite well_worded_iff in Hw.
    now destruct (startswith msg REQUIRED_WORDING).
  - intros (text & line & m & msg & E & Hin & Hm & Hg & Hs).
    exists text, line, msg. repeat split; auto.
    + apply captured_iff. now exists m.
    + rewrite well_worded_iff. congruence.
Qed.

(** The line numbers of the entries are those of the violating lines. *)
Lemma entries_from_numbers (lines : list str) : forall i,
  exists ns,
    map entry_lineno (entries_from i lines) = map Some ns /\
    StronglySorted lt ns /\
    forall n, In n ns <->
      exists j line, nth_error lines j = Some line /\
                     violates line = true /\ n = i + j.
Proof.
  induction lines as [|l ls IH]; intros i; simpl.
  - exists []. split; [reflexivity|]. split; [constructor|].
    intros n. split; [intros []|].
    intros ([|j] & line & Hj & _); discriminate Hj.
  - destruct (IH (S i)) as (ns & Hm & Hs & Hn).
    assert (forall n, In n ns -> i < n) as Hlt.
    { intros n Hin. apply Hn in Hin as (j & _ & _ & _ & ->). lia. }
    destruct (violates l) eqn:V.
    + exists (i :: ns). simpl. rewrite entry_lineno_entry, Hm.
      split; [reflexivity|]. split.
      { constructor; [assumption|]. now apply Forall_forall. }
      intros n. split.
      * intros [<-|Hin].
        -- exists 0, l. rewrite Nat.add_0_r. auto.
        -- apply Hn in Hin as (j & line & H1 & H2 & ->).
           exists (S j), line. repeat split; auto; lia.
      * intros ([|j] & line & H1 & H2 & ->).
        -- left. lia.
        -- right. apply Hn. exists j, line. repeat split; auto; lia.
    + exists ns. split; [assumption|]. split; [assumption|].
      intros n. split.
      * intros Hin. apply Hn in Hin as (j & line & H1 & H2 & ->).
        exists (S j), line. repeat split; auto; lia.
      * intros ([|j] & line & H1 & H2 & ->).
        -- simpl in H1. injection H1 as <-. congruence.
        -- apply Hn. exists j, line. repeat split; auto; lia.
Qed.

(** ** Call sites of a line *)

Lemma call_sites_complete (a b : str) : forall pos,
  In (pos + List.length a) (call_sites pos (a ++ CALL_OPEN ++ b)).
Proof.
  induction a as [|c a IH]; intros pos.
  - rewrite Nat.add_0_r. cbn [app].
    destruct (CALL_OPEN ++ b) eqn:E; cbn [call_sites];
      rewrite <- E, startswith_app; now left.
  - cbn [app call_sites List.length]. apply in_or_app. right.
    rewrite Nat.add_succ_r. apply (IH (S pos)).
Qed.

Lemma app_same_length (A : Type) (a pre x y : list A) :
  List.length a = List.length pre -> a ++ x = pre ++ y -> a = pre.
Proof.
  revert pre; induction a as [|c a IH]; intros [|d pre] Hl E;
    simpl in *; try discriminate; [reflexivity|].
  injection E as -> E. f_equal. apply IH; [lia | assumption].
Qed.

Lemma sole_call_site (pre rest : str) :
  call_sites 0 (pre ++ rest) = [List.length pre] ->
  forall a b, pre ++ rest = a ++ CALL_OPEN ++ b -> a = pre.
Proof.
  intros Hs a b E.
  pose proof (call_sites_complete a b 0) as Hin.
  rewrite <- E, Hs in Hin. destruct Hin as [Hl|[]]. simpl in Hl.
  symmetry in E. now apply app_same_length in E.
Qed.

(** ** The run as a whole *)

Lemma stdout_lines_app (t1 t2 : list event) :
  stdout_lines (t1 ++ t2) = stdout_lines t1 ++ stdout_lines t2.
Proof.
  induction t1 as [|[x|x|x] t1 IH]; simpl; auto. now rewrite IH.
Qed.



Section Run.

Variable fs : str -> file.
Variable out : codec.

Lemma main_no_paths (argv0 : str) :
  main fs out [argv0] =
  if forallb (encodable out) (usage argv0)
  then ([Stdout (usage argv0)], Raise (SystemExit 1%N))
  else ([], Raise (Exception_ (encode_error out (usage argv0)))).
Proof.
  unfold main. cbn [List.length Nat.ltb Nat.leb]. rewrite print_eq.
  now destruct (forallb (encodable out) (usage argv0)).
Qed.

Lemma main_no_paths_status (argv0 : str) :
  exit_status (main fs out [argv0]) = 1%N.
Proof.
  rewrite main_no_paths.
  now destruct (forallb (encodable out) (usage argv0)).
Qed.

Lemma main_status_paths (argv0 : str) (paths : list str) :
  paths <> [] ->
  exit_status (main fs out (argv0 :: paths)) =
  if forallb (passes fs) paths then 0%N else 1%N.
Proof.
  destruct paths as [|p ps]; [congruence|]. intros _. apply main_status.
Qed.




Lemma report_fails (path : str) :
  passes fs path = false -> exists ls, report fs path = header path :: ls.
Proof.
  unfold passes, report.
  destruct (check_file_val fs path) as (errors & ->). cbn [result snd].
  destruct errors; [discriminate | eauto].
Qed.

Lemma stdout_check_file (path : str) :
  stdout_lines (trace (check_file fs path)) = [] /\
  stderr_lines (trace (check_file fs path)) =
    if unreadableb (fs path) then [diagnostic path (fs path)] else [].
Proof.
  destruct (unreadable_dec (fs path)) as [H|[text H]].
  - rewrite (check_file_unreadable _ _ H).
    destruct (fs path) as [|e|t [e|]]; try (split; reflexivity).
    contradiction.
  - rewrite (check_file_readable _ _ _ H), H. split; reflexivity.
Qed.

Lemma stdout_lines_Stdout (l : list str) : stdout_lines (map Stdout l) = l.
Proof. induction l; simpl; congruence. Qed.

(** With printable headers, the loop is silent on standard output exactly
    when every path passes. *)
Lemma for_paths_stdout (paths : list str) :
  Forall (fun p => printable out (header p)) paths ->
  forall c,
    stdout_lines (trace (for_paths fs out paths c)) = [] <->
    forallb (passes fs) paths = true.
Proof.
  induction 1 as [|p ps Hp _ IH]; intros c; [simpl; tauto|].
  rewrite for_paths_step, bind_val. cbn [trace fst forallb].
  rewrite stdout_lines_app, (proj1 (stdout_check_file p)). cbn [app].
  destruct (passes fs p) eqn:P; [apply IH|].
  destruct (report_fails _ P) as (ls & R). rewrite R.
  cbn [print_all]. rewrite print_eq. unfold printable in Hp. rewrite Hp.
  rewrite bind_assoc, bind_val. cbn [trace fst]. split; discriminate.
Qed.

Lemma for_paths_silent (paths : list str) : forall c,
  forallb (passes fs) paths = true ->
  stdout_lines (trace (for_paths fs out paths c)) = [].
Proof.
  induction paths as [|p ps IH]; intros c F; [reflexivity|].
  cbn [forallb] in F. apply andb_true_iff in F as [Fp Fs].
  rewrite for_paths_step, bind_val, Fp. cbn [trace fst].
  rewrite stdout_lines_app, (proj1 (stdout_check_file p)). now apply IH.
Qed.

Lemma main_stdout (argv0 path : str) (paths : list str) :
  stdout_lines (trace (main fs out (argv0 :: path :: paths))) =
  stdout_lines (trace (for_paths fs out (path :: paths) 0%N)).
Proof.
  rewrite main_run.
  destruct (for_paths_shape fs out (path :: paths)) as (T & [E|(_ & e & E)]);
    rewrite E.
  - rewrite bind_val. cbn [trace fst sys_exit raise]. now rewrite app_nil_r.
  - reflexivity.
Qed.




End Run.

(** ** The properties *)

(** Closes [~ In c s] for a concrete [s] that does not hold [c]. *)
Ltac absent :=
  simpl; let H := fresh in
  intros H; repeat destruct H as [H|H]; try discriminate H; exact H.


(** C1. With at least one path argument the process exits with status 0
    exactly when every listed file is read without error and every message
    captured in it starts with [failed to], and with status 1 exactly when
    some path cannot be read or some captured message lacks that prefix.
    The captured message of a line is read off its text (the leftmost
    occurrence of the call-site pattern) and the prefix is written out. *)
Theorem exit_status_iff (fs : str -> file) (out : codec) (argv0 path : str)
    (paths : list str) :
  let run := main fs out (argv0 :: path :: paths) in
  (exit_status run = 0%N <->
   Forall (fun p => compliant (fs p)) (path :: paths)) /\
  (exit_status run = 1%N <->
   Exists (fun p => unreadable (fs p) \/ offending (fs p)) (path :: paths)).
Proof.
  intros run. subst run. rewrite main_status.
  set (ps := path :: paths).
  destruct (forallb (passes fs) ps) eqn:E.
  - rewrite forallb_forall in E. repeat split; try discriminate.
    + intros _. apply Forall_forall. intros p Hp.
      apply compliant_iff, passes_conforming. now apply E.
    + intros Hex. apply Exists_exists in Hex as (p & Hp & Hbad).
      rewrite offending_iff in Hbad.
      apply passes_failing in Hbad. rewrite (E _ Hp) in Hbad. discriminate.
  - repeat split; try discriminate.
    + intros Hall. rewrite Forall_forall in Hall.
      assert (forallb (passes fs) ps = true) as F.
      { apply forallb_forall. intros p Hp.
        apply passes_conforming, compliant_iff. now apply Hall. }
      congruence.
    + intros _. apply Exists_exists.
      assert (exists p, In p ps /\ passes fs p = false) as (p & Hp & Hf).
      { clear -E. induction ps as [|p ps IH]; simpl in E; [discriminate|].
        destruct (passes fs p) eqn:P; simpl in E.
        - destruct (IH E) as (p' & Hp' & Hf). exists p'.
          split; [now right | assumption].
        - exists p. split; [now left | assumption]. }
      exists p. split; [assumption|].
      rewrite offending_iff. now apply passes_failing.
Qed.

(** C2. On a line of a readable file where the pattern matches, the captured
    message is the raw text between the quotes and is tested, character by
    character and untrimmed, against the constant [failed to]: when it equals
    or begins with it, the result holds no entry for that line; otherwise it
    holds exactly one, the entry carrying the line's 1-based number. *)
Theorem prefix_test_per_line (fs : str -> file) (path text : str) (i : nat)
    (line : str) (m : match_obj) (msg : str) :
  fs path = File text None ->
  nth_error (readlines text) i = Some line ->
  search ERROR_PATTERN line = Some m ->
  group1 m = Some msg ->
  exists res,
    result (check_file fs path) = Val res /\
    (exists pre rest, line = pre ++ CALL_OPEN ++ msg ++ DQUOTE :: rest) /\
    ((exists t, msg = lit "failed to" ++ t) -> entries_at (S i) res = []) /\
    (~ (exists t, msg = lit "failed to" ++ t) ->
     entries_at (S i) res = [entry (S i) line] /\
     entry_lineno (entry (S i) line) = Some (S i) /\
     entry_text (entry (S i) line) = strip line).
Proof.
  intros Hfs Hnth Hm Hg. exists (entries_from 1 (readlines text)).
  rewrite (check_file_readable _ _ _ Hfs). split; [reflexivity|].
  pose proof (entries_at_nth (readlines text) 1 i) as Hat.
  rewrite Hnth in Hat. cbn [Nat.add] in Hat.
  unfold violates in Hat. rewrite Hm, Hg in Hat.
  split; [|split].
  - apply search_leftmost in Hm as (pos & msg' & (pre & rest & Hl & _) & _ & ->).
    injection Hg as <-. now exists pre, rest.
  - intros Hp. apply startswith_iff in Hp. unfold REQUIRED_WORDING in Hat.
    now rewrite Hp in Hat.
  - intros Hp.
    destruct (startswith msg REQUIRED_WORDING) eqn:E.
    + exfalso. apply Hp. now apply startswith_iff.
    + split; [exact Hat|]. split; [apply entry_lineno_entry|].
      apply entry_text_entry.
Qed.

Lemma prefix_test_per_line_witness :
  exists res,
    result (check_file demo_fs demo_path) = Val res /\
    (exists pre rest,
       scenario_line2 ++ [LF]
       = pre ++ CALL_OPEN ++ lit "could not write" ++ DQUOTE :: rest) /\
    ((exists t, lit "could not write" = lit "failed to" ++ t) ->
     entries_at 2 res = []) /\
    (~ (exists t, lit "could not write" = lit "failed to" ++ t) ->
     entries_at 2 res = [entry 2 (scenario_line2 ++ [LF])] /\
     entry_lineno (entry 2 (scenario_line2 ++ [LF])) = Some 2 /\
     entry_text (entry 2 (scenario_line2 ++ [LF]))
     = strip (scenario_line2 ++ [LF])).
Proof.
  apply (prefix_test_per_line demo_fs demo_path (scenario_text [LF] [LF]) 1
           (scenario_line2 ++ [LF]) (match_of 5 (lit "could not write"))
           (lit "could not write")); reflexivity.
Defined.

(** C4. On a line with two or more occurrences of the call-site pattern the
    match is the one of the leftmost occurrence, and the result holds at
    most one entry for the line: none when the leftmost message starts with
    the required wording, one otherwise, whatever the later messages are. *)
Theorem first_occurrence_decides (fs : str -> file) (path text : str)
    (i : nat) (line : str) (p1 p2 : nat) (msg1 msg2 : str) :
  fs path = File text None ->
  nth_error (readlines text) i = Some line ->
  occurrence line p1 msg1 ->
  occurrence line p2 msg2 ->
  p1 < p2 ->
  (forall p msg, p < p1 -> ~ occurrence line p msg) ->
  exists res,
    result (check_file fs path) = Val res /\
    search ERROR_PATTERN line = Some (match_of p1 msg1) /\
    entries_at (S i) res =
      (if startswith msg1 REQUIRED_WORDING then [] else [entry (S i) line]) /\
    List.length (entries_at (S i) res) <= 1.
Proof.
  intros Hfs Hnth Ho1 _ _ Hleft. exists (entries_from 1 (readlines text)).
  rewrite (check_file_readable _ _ _ Hfs). split; [reflexivity|].
  assert (search ERROR_PATTERN line = Some (match_of p1 msg1)) as Hm.
  { apply search_leftmost. exists p1, msg1. auto. }
  split; [exact Hm|].
  pose proof (entries_at_nth (readlines text) 1 i) as Hat.
  rewrite Hnth in Hat. cbn [Nat.add] in Hat.
  unfold violates in Hat. rewrite Hm in Hat. cbn [group1 match_of] in Hat.
  rewrite Hat.
  destruct (startswith msg1 REQUIRED_WORDING); simpl; auto.
Qed.

Lemma first_occurrence_decides_witness :
  exists res,
    result (check_file (single_file demo_path two_calls_line) demo_path)
    = Val res /\
    search ERROR_PATTERN two_calls_line
    = Some (match_of 7 (lit "failed to a")) /\
    entries_at 1 res =
      (if startswith (lit "failed to a") REQUIRED_WORDING then []
       else [entry 1 two_calls_line]) /\
    List.length (entries_at 1 res) <= 1.
Proof.
  apply (first_occurrence_decides (single_file demo_path two_calls_line)
           demo_path two_calls_line 0 two_calls_line 7 34
           (lit "failed to a") (lit "bad")).
  - reflexivity.
  - reflexivity.
  - exists (lit "return "), (lit "), fmt.Errorf(" ++ quoted "bad" ++ lit ")").
    repeat split; try discriminate. absent.
  - exists (lit "return fmt.Errorf(" ++ quoted "failed to a" ++ lit "), "),
      (lit ")").
    repeat split; try discriminate. absent.
  - repeat constructor.
  - intros p msg Hlt Ho.
    assert (match_at ERROR_PATTERN p (skipn p two_calls_line)
            = Some (match_of p msg)) as E.
    { apply match_at_skipn; [apply (occurrence_bound _ _ _ Ho)|].
      now exists msg. }
    do 7 (destruct p as [|p]; [discriminate E|]). lia.
Defined.







(** C7. For a readable file the result lists its entries in strictly
    increasing line-number order; the numbers are exactly those of the
    lines whose captured message does not start with [failed to], and the
    result is empty exactly when there is no such line. *)
Theorem scan_result_increasing (fs : str -> file) (path text : str) :
  fs path = File text None ->
  exists res ns,
    result (check_file fs path) = Val res /\
    map entry_lineno res = map Some ns /\
    StronglySorted lt ns /\
    Forall (fun n => 1 <= n <= List.length (readlines text)) ns /\
    (forall n, In n ns <->
       1 <= n /\
       exists line msg,
         nth_error (readlines text) (n - 1) = Some line /\
         captured line msg /\ ~ well_worded msg) /\
    (res = [] <->
     forall line msg,
       In line (readlines text) -> captured line msg -> well_worded msg).
Proof.
  intros Hfs. rewrite (check_file_readable _ _ _ Hfs).
  destruct (entries_from_numbers (readlines text) 1) as (ns & Hm & Hs & Hn).
  exists (entries_from 1 (readlines text)), ns.
  split; [reflexivity|]. split; [exact Hm|]. split; [exact Hs|].
  split; [|split].
  - apply Forall_forall. intros n Hin.
    apply Hn in Hin as (j & line & Hj & _ & ->).
    assert (j < List.length (readlines text))
      by (apply nth_error_Some; congruence).
    lia.
  - intros n. rewrite Hn. split.
    + intros (j & line & Hj & Hv & ->). split; [lia|].
      apply violates_captured in Hv as (msg & Hc & Hw).
      exists line, msg. replace (1 + j - 1) with j by lia. auto.
    + intros (H1 & line & msg & Hj & Hc & Hw).
      exists (n - 1), line. repeat split; [assumption| |lia].
      apply violates_captured. now exists msg.
  - rewrite entries_from_nil. split.
    + intros H line msg Hin Hc.
      destruct (startswith msg REQUIRED_WORDING) eqn:S;
        [now apply well_worded_iff|].
      assert (violates line = true) as V.
      { apply violates_captured. exists msg. split; [assumption|].
        rewrite well_worded_iff. congruence. }
      rewrite (H line Hin) in V. discriminate.
    + intros H line Hin. destruct (violates line) eqn:V; [|reflexivity].
      apply violates_captured in V as (msg & Hc & Hw).
      exfalso. apply Hw. now apply (H line).
Qed.

Lemma scan_result_increasing_witness :
  result (check_file (single_file demo_path unsorted_text) demo_path)
    = Val [lit "1:" ++ scenario_line2; lit "3:" ++ scenario_line2] /\
  map entry_lineno [lit "1:" ++ scenario_line2; lit "3:" ++ scenario_line2]
    = map Some [1; 3] /\
  exists res ns,
    result (check_file (single_file demo_path unsorted_text) demo_path)
    = Val res /\
    map entry_lineno res = map Some ns /\
    StronglySorted lt ns /\
    Forall (fun n => 1 <= n <= List.length (readlines unsorted_text)) ns /\
    (forall n, In n ns <->
       1 <= n /\
       exists line msg,
         nth_error (readlines unsorted_text) (n - 1) = Some line /\
         captured line msg /\ ~ well_worded msg) /\
    (res = [] <->
     forall line msg,
       In line (readlines unsorted_text) ->
       captured line msg -> well_worded msg).
Proof.
  split; [reflexivity|]. split; [reflexivity|].
  apply (scan_result_increasing (single_file demo_path unsorted_text)
           demo_path).
  reflexivity.
Defined.

(** C8. Scanning the same path twice, the file's contents being the same at
    both scans, returns the same ordered result twice. *)
Theorem scan_twice_same (fs fs' : str -> file) (path : str) :
  fs path = fs' path ->
  exists res,
    result (r1 <- check_file fs path ;;
            r2 <- check_file fs' path ;;
            ret (r1, r2)) = Val (res, res).
Proof.
  intros H.
  destruct (unreadable_dec (fs path)) as [Hu|[text Ht]].
  - rewrite (check_file_unreadable fs path Hu).
    rewrite H in Hu. rewrite (check_file_unreadable fs' path Hu).
    rewrite H. eexists. reflexivity.
  - rewrite (check_file_readable fs path text Ht).
    rewrite H in Ht. rewrite (check_file_readable fs' path text Ht).
    eexists. reflexivity.
Qed.

Lemma scan_twice_same_witness :
  exists res,
    result (r1 <- check_file demo_fs demo_path ;;
            r2 <- check_file other_fs demo_path ;;
            ret (r1, r2)) = Val (res, res).
Proof.
  apply (scan_twice_same demo_fs other_fs demo_path). reflexivity.
Defined.

(** C9. The file with the three lines of the scenario gives exactly one
    entry, numbered 2, whose text is the second line as written; the run on
    that file exits with status 1, and prints the report block when
    standard output can encode the header and the entry. *)
Theorem scenario_three_lines (fs : str -> file) (out : codec)
    (argv0 path : str) (nl last : str) :
  In nl [[LF]; [CR; LF]; [CR]] ->
  last = [] \/ last = nl ->
  fs path = File (scenario_text nl last) None ->
  let e := lit "2:" ++ scenario_line2 in
  result (check_file fs path) = Val [e] /\
  entry_lineno e = Some 2 /\
  entry_text e = scenario_line2 /\
  (exists line2, nth_error (readlines (scenario_text nl last)) 1 = Some line2
                 /\ strip line2 = scenario_line2) /\
  (printable out (header path) -> printable out e ->
   main fs out [argv0; path] =
     ([Open path; Stdout (header path); Stdout e; Stdout []],
      Raise (SystemExit 1%N))) /\
  exit_status (main fs out [argv0; path]) = 1%N.
Proof.
  intros Hnl Hlast Hfs e.
  assert (entries_from 1 (readlines (scenario_text nl last)) = [e]
          /\ exists line2,
               nth_error (readlines (scenario_text nl last)) 1 = Some line2
               /\ strip line2 = scenario_line2) as [He Hl].
  { simpl in Hnl.
    destruct Hnl as [<-|[<-|[<-|[]]]]; destruct Hlast as [->| ->];
      (split; [vm_compute; reflexivity|]);
      eexists; (split; [vm_compute; reflexivity|]); vm_compute; reflexivity. }
  pose proof (check_file_readable fs path _ Hfs) as Hc. rewrite He in Hc.
  assert (passes fs path = false) as Hp by (unfold passes; now rewrite Hc).
  assert (report fs path = [header path; e; []]) as Hr
    by (unfold report; now rewrite Hc).
  rewrite Hc. repeat split; try assumption.
  - intros Hh Hpe. rewrite main_printable.
    + cbn [flat_map forallb]. rewrite Hc, Hr, Hp. reflexivity.
    + repeat constructor. rewrite Hr. repeat constructor; assumption.
  - rewrite main_status. cbn [forallb]. now rewrite Hp.
Qed.

Lemma scenario_three_lines_witness :
  result (check_file demo_fs demo_path) = Val [lit "2:" ++ scenario_line2] /\
  entry_lineno (lit "2:" ++ scenario_line2) = Some 2 /\
  entry_text (lit "2:" ++ scenario_line2) = scenario_line2 /\
  (exists line2,
     nth_error (readlines (scenario_text [LF] [LF])) 1 = Some line2
     /\ strip line2 = scenario_line2) /\
  main demo_fs utf8 [lit "check_go_errors.py"; demo_path] =
    ([Open demo_path; Stdout (header demo_path);
      Stdout (lit "2:" ++ scenario_line2); Stdout []],
     Raise (SystemExit 1%N)) /\
  exit_status (main demo_fs utf8 [lit "check_go_errors.py"; demo_path]) = 1%N.
Proof.
  destruct (scenario_three_lines demo_fs utf8 (lit "check_go_errors.py")
              demo_path [LF] [LF] (or_introl eq_refl) (or_intror eq_refl)
              eq_refl)
    as (H1 & H2 & H3 & H4 & H5 & H6).
  exact (conj H1 (conj H2 (conj H3 (conj H4
           (conj (H5 eq_refl eq_refl) H6))))).
Defined.

(** C3. The capture never runs across a double quote, escaped or not, and
    never across a line end: a match of a line read from a file is the call
    text, a non-empty message free of double quotes and line terminators,
    and the closing quote, and what follows that quote has no influence on
    the match.  With an escaped quote in the literal the message ends at the
    backslash.  A call site whose literal has no closing quote on the line
    gives no match, there or further right, and none at all when nothing
    before it holds a double quote. *)
Theorem capture_single_span (text line : str) :
  In line (readlines text) ->
  (forall m, search ERROR_PATTERN line = Some m ->
     exists pre msg rest,
       line = pre ++ CALL_OPEN ++ msg ++ DQUOTE :: rest /\
       m = match_of (List.length pre) msg /\
       msg <> [] /\ ~ In DQUOTE msg /\ ~ In LF msg /\ ~ In CR msg /\
       forall rest',
         search ERROR_PATTERN (pre ++ CALL_OPEN ++ msg ++ DQUOTE :: rest')
         = Some m) /\
  (forall pre a b,
     line = pre ++ CALL_OPEN ++ a ++ [BACKSLASH; DQUOTE] ++ b ->
     ~ In DQUOTE pre -> ~ In DQUOTE a ->
     search ERROR_PATTERN line
     = Some (match_of (List.length pre) (a ++ [BACKSLASH]))) /\
  (forall pre body,
     line = pre ++ CALL_OPEN ++ body -> ~ In DQUOTE body ->
     match_at ERROR_PATTERN (List.length pre) (CALL_OPEN ++ body) = None /\
     (forall pos msg, occurrence line pos msg -> pos < List.length pre) /\
     (~ In DQUOTE pre ->
      search ERROR_PATTERN line = None /\ violates line = false)).
Proof.
  intros Hin. apply readlines_one_line in Hin. split; [|split].
  - intros m Hm. pose proof Hm as Hs.
    apply search_leftmost in Hs
      as (pos & msg & (pre & rest & E & <- & Hne & Hq) & _ & ->).
    destruct (capture_plain _ _ _ _ Hin E) as [Hlf Hcr].
    exists pre, msg, rest. repeat split; auto.
    intros rest'. unfold search in *.
    rewrite (search_from_stable pre msg rest' rest 0 Hne Hq).
    now rewrite <- E.
  - intros pre a b -> Hp Ha. apply search_leftmost.
    exists (List.length pre), (a ++ [BACKSLASH]). repeat split.
    + exists pre, b. repeat split.
      * now rewrite <- !app_assoc.
      * destruct a; discriminate.
      * intros H. apply in_app_or in H as [H|[H|[]]];
          [contradiction | discriminate H].
    + intros pos' msg' Hlt Ho.
      apply occurrence_after_plain_context in Ho; [lia | assumption].
  - intros pre body -> Hb. split; [|split].
    + apply match_at_None. intros msg rest E Hne.
      apply app_inv_head in E. subst body. exfalso. apply Hb.
      apply in_or_app. right. now left.
    + intros pos msg. now apply occurrence_unterminated.
    + intros Hp. pose proof (search_unterminated _ _ Hp Hb) as Hs.
      split; [exact Hs|]. unfold violates. now rewrite Hs.
Qed.

Lemma capture_single_span_witness :
  search ERROR_PATTERN escaped_line
  = Some (match_of 5 (lit "bad " ++ [BACKSLASH])) /\
  search ERROR_PATTERN unterminated_line = None.
Proof.
  split.
  - apply (proj1 (proj2 (capture_single_span escaped_line escaped_line
                           (or_introl eq_refl)))
             (lit "e := ") (lit "bad ")
             (lit "x" ++ [BACKSLASH; DQUOTE] ++ lit " failed to" ++ [DQUOTE]
                ++ lit ")")).
    + reflexivity.
    + absent.
    + absent.
  - apply (proj2 (proj2 (capture_single_span unterminated_line
                           unterminated_line (or_introl eq_refl)))
             (lit "e := ") (lit "bad, x)")).
    + reflexivity.
    + absent.
    + absent.
Defined.

(** C10, as amended.  A call with an empty string literal gives no match at
    its own site, the pattern wanting at least one character between the
    quotes, so a match of its line never starts there; a line on which that
    call is the only call site, whatever other double quotes the line
    holds, gives no match and no entry. *)
Theorem empty_literal_no_match (fs : str -> file) (path text : str) (i : nat)
    (pre post : str) :
  fs path = File text None ->
  nth_error (readlines text) i = Some (pre ++ CALL_OPEN ++ DQUOTE :: post) ->
  match_at ERROR_PATTERN (List.length pre) (CALL_OPEN ++ DQUOTE :: post)
    = None /\
  (forall m, search ERROR_PATTERN (pre ++ CALL_OPEN ++ DQUOTE :: post) = Some m
             -> m_start m <> List.length pre) /\
  ((forall a b,
      pre ++ CALL_OPEN ++ DQUOTE :: post = a ++ CALL_OPEN ++ b -> a = pre) ->
   search ERROR_PATTERN (pre ++ CALL_OPEN ++ DQUOTE :: post) = None /\
   exists res,
     result (check_file fs path) = Val res /\ entries_at (S i) res = []).
Proof.
  intros Hfs Hnth. split; [apply match_at_empty_literal|]. split.
  - intros m Hm Hst.
    apply search_leftmost in Hm as (pos & msg & Ho & _ & ->).
    cbn [m_start match_of] in Hst. subst pos.
    assert (match_at ERROR_PATTERN (List.length pre)
              (skipn (List.length pre) (pre ++ CALL_OPEN ++ DQUOTE :: post))
            = Some (match_of (List.length pre) msg)) as E.
    { apply match_at_skipn; [apply (occurrence_bound _ _ _ Ho)|].
      now exists msg. }
    rewrite skipn_app_length, match_at_empty_literal in E. discriminate E.
  - intros Honly.
    assert (search ERROR_PATTERN (pre ++ CALL_OPEN ++ DQUOTE :: post) = None)
      as Hs.
    { apply search_None. intros pos msg (pre0 & rest0 & E & _ & Hne & Hq).
      pose proof (Honly pre0 _ E) as ->.
      apply app_inv_head in E. apply app_inv_head in E.
      destruct msg as [|c msg]; [contradiction|].
      injection E as <- _. apply Hq. now left. }
    split; [exact Hs|].
    exists (entries_from 1 (readlines text)).
    rewrite (check_file_readable _ _ _ Hfs). split; [reflexivity|].
    pose proof (entries_at_nth (readlines text) 1 i) as Hat.
    rewrite Hnth in Hat. cbn [Nat.add] in Hat.
    unfold violates in Hat. now rewrite Hs in Hat.
Qed.

Lemma empty_literal_no_match_witness :
  match_at ERROR_PATTERN 23 (CALL_OPEN ++ DQUOTE :: lit ")" ++ [LF]) = None /\
  search ERROR_PATTERN quoted_then_empty_line = None /\
  exists res,
    result (check_file (single_file demo_path quoted_then_empty_line)
              demo_path) = Val res /\
    entries_at 1 res = [].
Proof.
  destruct (empty_literal_no_match
              (single_file demo_path quoted_then_empty_line)
              demo_path quoted_then_empty_line 0
              (lit "log.Print(" ++ quoted "x" ++ lit "); return ")
              (lit ")" ++ [LF]) eq_refl eq_refl) as (Hsite & _ & Hline).
  split; [exact Hsite|]. apply Hline.
  apply (sole_call_site (lit "log.Print(" ++ quoted "x" ++ lit "); return ")
           (CALL_OPEN ++ DQUOTE :: lit ")" ++ [LF])).
  reflexivity.
Defined.

(** C10, as stated, fails: this line contains a call with an empty literal,
    and the second call on it matches and gives an entry. *)
Lemma empty_literal_line_with_match :
  (exists pre post,
     empty_then_bad_line = pre ++ CALL_OPEN ++ DQUOTE :: post) /\
  search ERROR_PATTERN empty_then_bad_line = Some (match_of 23 (lit "bad")) /\
  search ERROR_PATTERN empty_then_bad_line <> None /\
  result (check_file (single_file demo_path empty_then_bad_line) demo_path)
  = Val [entry 1 empty_then_bad_line] /\
  result (check_file (single_file demo_path empty_then_bad_line) demo_path)
  <> Val [].
Proof.
  split; [|repeat split; try discriminate; reflexivity].
  exists (lit "return "), (lit "), fmt.Errorf(" ++ quoted "bad" ++ lit ")").
  reflexivity.
Qed.

(** ** Further properties of the driver *)

(** X1. When every listed file reads without error and every captured
    message starts with the required wording, the run does nothing but open
    the files in order and exits with status 0: it prints nothing. *)
Theorem silent_on_success (fs : str -> file) (out : codec)
    (argv0 path : str) (paths : list str) :
  Forall (fun p => conforming (fs p)) (path :: paths) ->
  main fs out (argv0 :: path :: paths) =
  (map Open (path :: paths), Raise (SystemExit 0%N)).
Proof.
  intros Hall.
  assert (forall p, In p (path :: paths) -> passes fs p = true) as Hp.
  { rewrite Forall_forall in Hall. intros p Hin.
    apply passes_conforming. now apply Hall. }
  rewrite main_printable.
  - f_equal.
    + clear Hall. induction (path :: paths) as [|p ps IH]; [reflexivity|].
      cbn [flat_map map].
      rewrite (report_passes fs p) by (apply Hp; now left).
      assert (trace (check_file fs p) = [Open p]) as ->.
      { specialize (Hp p (or_introl eq_refl)).
        destruct (unreadable_dec (fs p)) as [H|[text H]].
        - rewrite (passes_unreadable _ _ H) in Hp. discriminate.
        - now rewrite (check_file_readable _ _ _ H). }
      simpl. f_equal. apply IH. intros p' Hin. apply Hp. now right.
    + apply forallb_forall in Hp. now rewrite Hp.
  - apply Forall_forall. intros p Hin.
    rewrite (report_passes fs p) by now apply Hp. constructor.
Qed.

Lemma silent_on_success_witness :
  main (single_file demo_path scenario_line1) utf8
    [lit "prog"; demo_path; demo_path]
  = ([Open demo_path; Open demo_path], Raise (SystemExit 0%N)).
Proof.
  apply (silent_on_success (single_file demo_path scenario_line1) utf8
           (lit "prog") demo_path [demo_path]).
  assert (conforming (single_file demo_path scenario_line1 demo_path)) as C.
  { apply passes_conforming. reflexivity. }
  repeat constructor; exact C.
Defined.

(** X2. When standard output can encode the usage line and the header of
    every path, the run prints nothing on standard output exactly when it
    exits with status 0; a run that exits with status 0 prints nothing on
    it in any case. *)
Theorem stdout_empty_iff_success (fs : str -> file) (out : codec)
    (argv0 : str) (paths : list str) :
  (exit_status (main fs out (argv0 :: paths)) = 0%N ->
   stdout_lines (trace (main fs out (argv0 :: paths))) = []) /\
  (printable out (usage argv0) ->
   Forall (fun p => printable out (header p)) paths ->
   stdout_lines (trace (main fs out (argv0 :: paths))) = [] ->
   exit_status (main fs out (argv0 :: paths)) = 0%N).
Proof.
  destruct paths as [|p ps].
  - rewrite main_no_paths_status. split; [discriminate|].
    intros Hu _. rewrite main_no_paths. unfold printable in Hu.
    rewrite Hu. discriminate.
  - rewrite main_status, main_stdout. split.
    + destruct (forallb (passes fs) (p :: ps)) eqn:F; [|discriminate].
      intros _. now apply for_paths_silent.
    + intros _ Hh Hs.
      apply (for_paths_stdout fs out _ Hh) in Hs. now rewrite Hs.
Qed.

Lemma stdout_empty_iff_success_witness :
  stdout_lines
    (trace (main (single_file demo_path scenario_line1) utf8
              [lit "prog"; demo_path])) = [] /\
  exit_status (main (single_file demo_path scenario_line1) utf8
                 [lit "prog"; demo_path]) = 0%N.
Proof.
  assert (stdout_lines
            (trace (main (single_file demo_path scenario_line1) utf8
                      [lit "prog"; demo_path])) = []) as Hs by reflexivity.
  split; [exact Hs|].
  apply (proj2 (stdout_empty_iff_success
                  (single_file demo_path scenario_line1) utf8 (lit "prog")
                  [demo_path])).
  - reflexivity.
  - repeat constructor.
  - exact Hs.
Defined.

(** X3. Checking two non-empty lists of files in one run exits with the
    larger of the exit statuses of the two separate runs.  Its events are
    those of the first run, followed by those of the second when the first
    ends through [sys.exit]; when a print fails in the first, the run stops
    where the first run stops. *)
Theorem run_concat (fs : str -> file) (out : codec) (argv0 : str)
    (ps qs : list str) :
  ps <> [] -> qs <> [] ->
  exit_status (main fs out (argv0 :: ps ++ qs)) =
    N.max (exit_status (main fs out (argv0 :: ps)))
          (exit_status (main fs out (argv0 :: qs))) /\
  trace (main fs out (argv0 :: ps ++ qs)) =
    trace (main fs out (argv0 :: ps))
    ++ match result (main fs out (argv0 :: ps)) with
       | Raise (SystemExit _) => trace (main fs out (argv0 :: qs))
       | _ => []
       end.
Proof.
  intros Hp Hq.
  assert (ps ++ qs <> []) as Hpq by (destruct ps; [congruence|discriminate]).
  split.
  - rewrite !main_status_paths by assumption. rewrite forallb_app.
    destruct (forallb (passes fs) ps), (forallb (passes fs) qs); reflexivity.
  - destruct ps as [|p ps]; [congruence|].
    destruct qs as [|q' qs]; [congruence|].
    cbn [app]. rewrite !main_run. rewrite app_comm_cons, for_paths_app.
    destruct (for_paths_shape fs out (p :: ps)) as (T & [E|(_ & e & E)]);
      rewrite !E.
    + destruct (for_paths_shape fs out (q' :: qs))
        as (T2 & [E2|(_ & e2 & E2)]);
        rewrite bind_val, !E2; cbn [trace result fst snd];
        rewrite ?bind_val, ?bind_raise;
        cbn [trace result fst snd sys_exit raise];
        now rewrite ?app_nil_r.
    + rewrite !bind_raise. cbn [trace result fst snd]. now rewrite app_nil_r.
Qed.

Lemma run_concat_witness :
  exit_status (main demo_fs utf8 (lit "prog" :: [surrogate_path] ++ [demo_path]))
    = N.max (exit_status (main demo_fs utf8 [lit "prog"; surrogate_path]))
            (exit_status (main demo_fs utf8 [lit "prog"; demo_path])) /\
  trace (main demo_fs utf8 (lit "prog" :: [surrogate_path] ++ [demo_path])) =
    trace (main demo_fs utf8 [lit "prog"; surrogate_path])
    ++ match result (main demo_fs utf8 [lit "prog"; surrogate_path]) with
       | Raise (SystemExit _) => trace (main demo_fs utf8 [lit "prog"; demo_path])
       | _ => []
       end.
Proof.
  apply (run_concat demo_fs utf8 (lit "prog") [surrogate_path] [demo_path]);
    discriminate.
Defined.

(** X4. The exit status does not depend on the order in which the paths
    are given, nor on the program name, nor on what standard output can
    encode. *)
Theorem exit_status_permutation (fs : str -> file) (out out' : codec)
    (argv0 argv0' : str) (ps qs : list str) :
  Permutation ps qs ->
  exit_status (main fs out (argv0 :: ps))
  = exit_status (main fs out' (argv0' :: qs)).
Proof.
  intros HP.
  assert (forallb (passes fs) ps = forallb (passes fs) qs) as E.
  { induction HP; simpl; try congruence.
    destruct (passes fs x), (passes fs y); reflexivity. }
  destruct ps as [|p ps].
  - apply Permutation_nil in HP. subst qs.
    now rewrite !main_no_paths_status.
  - destruct qs as [|q' qs];
      [apply Permutation_sym, Permutation_nil in HP; discriminate|].
    rewrite !main_status. now rewrite E.
Qed.

Lemma exit_status_permutation_witness :
  exit_status (main demo_fs utf8 [lit "prog"; demo_path; lit "b.go"]) =
  exit_status (main demo_fs utf8 [lit "check"; lit "b.go"; demo_path]).
Proof.
  apply (exit_status_permutation demo_fs utf8 utf8 (lit "prog") (lit "check")
           [demo_path; lit "b.go"] [lit "b.go"; demo_path]).
  apply perm_swap.
Defined.


(** ** Further properties of the scan *)

Lemma In_entries_from (lines : list str) : forall i e,
  In e (entries_from i lines) <->
  exists j line,
    nth_error lines j = Some line /\ violates line = true /\
    e = entry (i + j) line.
Proof.
  induction lines as [|l ls IH]; intros i e; simpl.
  - split; [intros [] | intros ([|j] & line & H & _); discriminate H].
  - assert (In e (entries_from (S i) ls) <->
            exists j line, nth_error (l :: ls) (S j) = Some line /\
              violates line = true /\ e = entry (i + S j) line) as IH'.
    { rewrite IH. split; intros (j & line & H1 & H2 & H3); exists j, line;
        simpl in *; rewrite Nat.add_succ_r in *; auto. }
    destruct (violates l) eqn:V; simpl; rewrite IH'; split.
    + intros [<-|(j & line & H)].
      * exists 0, l. rewrite Nat.add_0_r. auto.
      * exists (S j), line. exact H.
    + intros ([|j] & line & H1 & H2 & H3).
      * left. simpl in H1. injection H1 as <-.
        now rewrite Nat.add_0_r in H3.
      * right. exists j, line. auto.
    + intros (j & line & H). exists (S j), line. exact H.
    + intros ([|j] & line & H1 & H2 & H3).
      * simpl in H1. injection H1 as <-. congruence.
      * exists j, line. auto.
Qed.

Lemma entries_from_length (lines : list str) : forall i,
  List.length (entries_from i lines) <= List.length lines.
Proof.
  induction lines as [|l ls IH]; intros i; simpl; [lia|].
  destruct (violates l); simpl; specialize (IH (S i)); lia.
Qed.

(** X6. The result of a readable file holds exactly the entries of its
    violating lines: every entry is the numbered, stripped text of a line
    whose first match fails the wording test, every such line has its entry,
    and there are no more entries than lines. *)
Theorem entries_exactly_violations (fs : str -> file) (path text : str) :
  fs path = File text None ->
  exists res,
    result (check_file fs path) = Val res /\
    (forall e, In e res <->
       exists i line m msg,
         nth_error (readlines text) i = Some line /\
         search ERROR_PATTERN line = Some m /\ group1 m = Some msg /\
         startswith msg REQUIRED_WORDING = false /\
         e = entry (S i) line) /\
    List.length res <= List.length (readlines text).
Proof.
  intros Hfs. exists (entries_from 1 (readlines text)).
  rewrite (check_file_readable _ _ _ Hfs).
  split; [reflexivity|]. split; [|apply entries_from_length].
  intros e. rewrite In_entries_from. split.
  - intros (j & line & Hn & Hv & ->).
    apply violates_iff in Hv as (m & msg & Hm & Hg & Hs).
    exists j, line, m, msg. auto.
  - intros (i & line & m & msg & Hn & Hm & Hg & Hs & ->).
    exists i, line. repeat split; auto.
    apply violates_iff. exists m, msg. auto.
Qed.

Lemma entries_exactly_violations_witness :
  exists res,
    result (check_file demo_fs demo_path) = Val res /\
    (forall e, In e res <->
       exists i line m msg,
         nth_error (readlines (scenario_text [LF] [LF])) i = Some line /\
         search ERROR_PATTERN line = Some m /\ group1 m = Some msg /\
         startswith msg REQUIRED_WORDING = false /\
         e = entry (S i) line) /\
    List.length res <= List.length (readlines (scenario_text [LF] [LF])).
Proof.
  apply (entries_exactly_violations demo_fs demo_path). reflexivity.
Defined.

(** *** What [strip] removes *)

Lemma lstrip_app_nonspace (pre x : str) (c : char) :
  isspace c = false -> lstrip (pre ++ c :: x) = lstrip pre ++ c :: x.
Proof.
  intros Hc. induction pre as [|d pre IH]; simpl.
  - now rewrite Hc.
  - destruct (isspace d); [exact IH | reflexivity].
Qed.

Lemma rstrip_app_nonspace (y rest : str) (c : char) :
  isspace c = false -> rstrip (y ++ c :: rest) = y ++ c :: rstrip rest.
Proof.
  intros Hc. unfold rstrip. rewrite rev_app_distr. simpl.
  rewrite <- app_assoc. simpl. rewrite lstrip_app_nonspace by assumption.
  rewrite rev_app_distr. simpl. rewrite rev_involutive, <- app_assoc.
  reflexivity.
Qed.

Lemma lstrip_split (s : str) :
  exists ws, s = ws ++ lstrip s /\ forallb isspace ws = true.
Proof.
  induction s as [|c s (ws & E & F)]; simpl.
  - now exists [].
  - destruct (isspace c) eqn:Hc.
    + exists (c :: ws). simpl. rewrite Hc, F. split; [now f_equal|reflexivity].
    + now exists [].
Qed.

Lemma rstrip_split (s : str) :
  exists ws, s = rstrip s ++ ws /\ forallb isspace ws = true.
Proof.
  destruct (lstrip_split (rev s)) as (ws & E & F).
  exists (rev ws). unfold rstrip. split.
  - rewrite <- rev_app_distr, <- E. symmetry. apply rev_involutive.
  - rewrite forallb_forall in *. intros c Hc. apply F. now apply in_rev.
Qed.

Lemma lstrip_head (s y : str) (c : char) :
  lstrip s = c :: y -> isspace c = false.
Proof.
  induction s as [|d s IH]; simpl; [discriminate|].
  destruct (isspace d) eqn:Hd; [exact IH|]. now intros [= <- _].
Qed.

Lemma rstrip_last (s y : str) (c : char) :
  rstrip s = y ++ [c] -> isspace c = false.
Proof.
  unfold rstrip. intros E. apply (f_equal (@rev _)) in E.
  rewrite rev_involutive, rev_app_distr in E. simpl in E.
  now apply lstrip_head in E.
Qed.

(** X7. An entry shows the call and its message untouched: of a line with
    a call, [strip] removes only white space before the text that precedes
    the call and after the text that follows the closing quote. *)
Theorem entry_keeps_call (i : nat) (pre msg rest : str) :
  entry i (pre ++ CALL_OPEN ++ msg ++ DQUOTE :: rest) =
    str_of_int i ++ [COLON]
      ++ lstrip pre ++ CALL_OPEN ++ msg ++ DQUOTE :: rstrip rest /\
  (exists ws, pre = ws ++ lstrip pre /\ forallb isspace ws = true) /\
  (exists ws, rest = rstrip rest ++ ws /\ forallb isspace ws = true).
Proof.
  split; [|split; [apply lstrip_split | apply rstrip_split]].
  unfold entry, strip. do 2 f_equal.
  assert (forall x, lstrip (pre ++ CALL_OPEN ++ x)
                    = lstrip pre ++ CALL_OPEN ++ x) as L.
  { intros x. change (CALL_OPEN ++ x) with (102%N :: tl CALL_OPEN ++ x).
    now apply lstrip_app_nonspace. }
  rewrite L.
  replace (lstrip pre ++ CALL_OPEN ++ msg ++ DQUOTE :: rest)
    with ((lstrip pre ++ CALL_OPEN ++ msg) ++ DQUOTE :: rest)
    by now rewrite <- !app_assoc.
  rewrite rstrip_app_nonspace by reflexivity.
  now rewrite <- !app_assoc.
Qed.

Lemma uint_chars_digits (u : Decimal.uint) (c : char) :
  In c (uint_chars u) -> (48 <= c <= 57)%N.
Proof.
  induction u; simpl; try tauto; intros [<-|H]; auto;
    unfold digit_char; lia.
Qed.

Lemma strip_no_terminator (line : str) :
  one_line line -> ~ In LF (strip line) /\ ~ In CR (strip line).
Proof.
  intros Hl.
  destruct (lstrip_split line) as (ws1 & E1 & _).
  destruct (rstrip_split (lstrip line)) as (ws2 & E2 & _).
  fold (strip line) in E2. rewrite E2 in E1.
  assert (forall c, isspace c = true -> In c (strip line) -> plain c) as Hp.
  { intros c Hc Hin. apply in_split in Hin as (s1 & s2 & Es).
    destruct s2 as [|d s2].
    - exfalso. unfold strip in Es. apply rstrip_last in Es. congruence.
    - apply (one_line_inner line (ws1 ++ s1) (d :: s2 ++ ws2) c Hl);
        [|discriminate].
      rewrite E1, Es, <- !app_assoc. reflexivity. }
  split; intros H; apply Hp in H; try reflexivity; destruct H; congruence.
Qed.

(** X8. Every entry of a readable file's result holds no line terminator,
    so it prints as exactly one line. *)
Theorem entries_single_line (fs : str -> file) (path text : str) :
  fs path = File text None ->
  exists res,
    result (check_file fs path) = Val res /\
    forall e, In e res -> ~ In LF e /\ ~ In CR e.
Proof.
  intros Hfs. exists (entries_from 1 (readlines text)).
  rewrite (check_file_readable _ _ _ Hfs). split; [reflexivity|].
  intros e He. apply In_entries_from in He as (j & line & Hn & _ & ->).
  apply nth_error_In, readlines_one_line in Hn.
  destruct (strip_no_terminator line Hn) as [Hlf Hcr].
  unfold entry, str_of_int.
  split; intros H; apply in_app_or in H as [H|[H|H]];
    try (apply uint_chars_digits in H; unfold LF, CR in H; lia);
    try discriminate H; auto.
Qed.

Lemma entries_single_line_witness :
  exists res,
    result (check_file (single_file demo_path
                          (scenario_text [CR; LF] [CR; LF])) demo_path)
    = Val res /\
    forall e, In e res -> ~ In LF e /\ ~ In CR e.
Proof.
  apply (entries_single_line
           (single_file demo_path (scenario_text [CR; LF] [CR; LF]))
           demo_path (scenario_text [CR; LF] [CR; LF])).
  reflexivity.
Defined.

(** *** Line terminators *)

Lemma readlines_from_plain (tail : str) : forall cur,
  Forall plain tail ->
  readlines_from cur tail =
  match cur ++ tail with [] => [] | _ :: _ => [cur ++ tail] end.
Proof.
  induction tail as [|c tail IH]; intros cur Hp; simpl.
  - rewrite app_nil_r. reflexivity.
  - inversion Hp as [|c' t' [Hlf Hcr] Ht]; subst.
    destruct (N.eqb_spec c LF); [contradiction|].
    destruct (N.eqb_spec c CR); [contradiction|].
    rewrite IH by assumption. rewrite <- app_assoc. reflexivity.
Qed.

(** Reading one plain line up to its terminator. *)
Lemma readlines_from_terminated (nl l rest : str) : forall cur,
  Forall plain l ->
  nl = [LF] \/ nl = [CR; LF] \/ (nl = [CR] /\ no_lf_head rest) ->
  readlines_from cur (l ++ nl ++ rest) =
  (cur ++ l ++ [LF]) :: readlines_from [] rest.
Proof.
  induction l as [|c l IH]; intros cur Hp Hnl.
  - rewrite app_nil_l. destruct Hnl as [->|[->|[-> Hh]]]; simpl.
    + reflexivity.
    + reflexivity.
    + destruct rest as [|d rest]; [reflexivity|]. simpl in Hh.
      destruct (N.eqb_spec d LF); [contradiction|reflexivity].
  - inversion Hp as [|c' t' [Hlf Hcr] Ht]; subst. simpl.
    destruct (N.eqb_spec c LF); [contradiction|].
    destruct (N.eqb_spec c CR); [contradiction|].
    rewrite IH by assumption. rewrite <- app_assoc. reflexivity.
Qed.

Lemma join_lines_cons (nl l : str) (ls : list str) (tail : str) :
  join_lines nl (l :: ls) ++ tail = l ++ nl ++ join_lines nl ls ++ tail.
Proof. unfold join_lines. simpl. now rewrite <- !app_assoc. Qed.

Lemma join_no_lf_head (ls : list str) (tail : str) :
  Forall (Forall plain) ls -> Forall plain tail ->
  no_lf_head (join_lines [CR] ls ++ tail).
Proof.
  intros Hls Ht. destruct ls as [|l ls].
  - simpl. destruct Ht as [|c t [H _] _]; simpl; auto.
  - rewrite join_lines_cons. inversion Hls as [|l' ls' Hl _]; subst.
    destruct Hl as [|c t [H _] _]; simpl; [discriminate | assumption].
Qed.

Lemma readlines_join (nl : str) (ls : list str) (tail : str) :
  nl = [LF] \/ nl = [CR; LF] \/ nl = [CR] ->
  Forall (Forall plain) ls -> Forall plain tail ->
  readlines (join_lines nl ls ++ tail) =
  map (fun l => l ++ [LF]) ls
    ++ match tail with [] => [] | _ :: _ => [tail] end.
Proof.
  intros Hnl Hls Ht. unfold readlines.
  induction Hls as [|l ls Hl Hls IH].
  - simpl. now rewrite readlines_from_plain.
  - rewrite join_lines_cons.
    rewrite readlines_from_terminated; [now rewrite IH | assumption |].
    destruct Hnl as [->|[->| ->]]; auto.
    right; right. split; [reflexivity|]. now apply join_no_lf_head.
Qed.

(** X9. The scan does not depend on the line terminator: a file whose
    lines end in LF, in CR LF or in CR (the last line with or without
    terminator) is read as the same lines, each ending in LF, and two files
    with the same lines give the same result. *)
Theorem terminator_independent (fs fs' : str -> file) (path path' : str)
    (nl nl' : str) (ls : list str) (tail : str) :
  nl = [LF] \/ nl = [CR; LF] \/ nl = [CR] ->
  nl' = [LF] \/ nl' = [CR; LF] \/ nl' = [CR] ->
  Forall (Forall plain) ls -> Forall plain tail ->
  fs path = File (join_lines nl ls ++ tail) None ->
  fs' path' = File (join_lines nl' ls ++ tail) None ->
  readlines (join_lines nl ls ++ tail) =
    map (fun l => l ++ [LF]) ls
      ++ match tail with [] => [] | _ :: _ => [tail] end /\
  result (check_file fs path) = result (check_file fs' path').
Proof.
  intros Hnl Hnl' Hls Ht Hfs Hfs'.
  split; [now apply readlines_join|].
  rewrite (check_file_readable _ _ _ Hfs), (check_file_readable _ _ _ Hfs').
  cbn [result snd]. now rewrite !readlines_join.
Qed.

(** Closes [Forall plain s] for a concrete [s] without terminators. *)
Ltac all_plain := repeat constructor; discriminate.

Lemma terminator_independent_witness :
  readlines (join_lines [CR] [scenario_line1; []; scenario_line2]
               ++ scenario_line3) =
    [scenario_line1 ++ [LF]; [LF]; scenario_line2 ++ [LF]; scenario_line3] /\
  result (check_file
            (single_file demo_path
               (join_lines [CR] [scenario_line1; []; scenario_line2]
                  ++ scenario_line3)) demo_path) =
  result (check_file
            (single_file (lit "b.go")
               (join_lines [CR; LF] [scenario_line1; []; scenario_line2]
                  ++ scenario_line3)) (lit "b.go")).
Proof.
  apply (terminator_independent
           (single_file demo_path
              (join_lines [CR] [scenario_line1; []; scenario_line2]
                 ++ scenario_line3))
           (single_file (lit "b.go")
              (join_lines [CR; LF] [scenario_line1; []; scenario_line2]
                 ++ scenario_line3))
           demo_path (lit "b.go") [CR] [CR; LF]
           [scenario_line1; []; scenario_line2] scenario_line3).
  - auto.
  - auto.
  - repeat (apply Forall_cons; [all_plain|]). apply Forall_nil.
  - all_plain.
  - reflexivity.
  - reflexivity.
Defined.

(** *** Which calls are found *)

(** X10. A call whose line holds no double quote before it is always the
    one found, whatever else precedes it (a comment marker, a longer
    identifier ending in [fmt.Errorf]) and whatever follows its closing
    quote; its line is reported exactly when its message does not start with
    the required wording. *)
Theorem call_after_plain_context_found (fs : str -> file) (path text : str)
    (i : nat) (pre msg rest : str) :
  ~ In DQUOTE pre -> msg <> [] -> ~ In DQUOTE msg ->
  fs path = File text None ->
  nth_error (readlines text) i
    = Some (pre ++ CALL_OPEN ++ msg ++ DQUOTE :: rest) ->
  search ERROR_PATTERN (pre ++ CALL_OPEN ++ msg ++ DQUOTE :: rest)
    = Some (match_of (List.length pre) msg) /\
  exists res,
    result (check_file fs path) = Val res /\
    entries_at (S i) res =
      if startswith msg REQUIRED_WORDING then []
      else [entry (S i) (pre ++ CALL_OPEN ++ msg ++ DQUOTE :: rest)].
Proof.
  intros Hp Hne Hq Hfs Hnth.
  assert (search ERROR_PATTERN (pre ++ CALL_OPEN ++ msg ++ DQUOTE :: rest)
          = Some (match_of (List.length pre) msg)) as Hs.
  { apply search_leftmost. exists (List.length pre), msg. repeat split.
    - exists pre, rest. auto.
    - intros pos' msg' Hlt Ho.
      apply occurrence_after_plain_context in Ho; [lia | assumption]. }
  split; [exact Hs|].
  exists (entries_from 1 (readlines text)).
  rewrite (check_file_readable _ _ _ Hfs). split; [reflexivity|].
  pose proof (entries_at_nth (readlines text) 1 i) as Hat.
  rewrite Hnth in Hat. cbn [Nat.add] in Hat.
  unfold violates in Hat. rewrite Hs in Hat. cbn [group1 match_of] in Hat.
  rewrite Hat. now destruct (startswith msg REQUIRED_WORDING).
Qed.

Lemma call_after_plain_context_found_witness :
  search ERROR_PATTERN
    (lit "// return myfmt.Errorf(" ++ [DQUOTE] ++ lit "Failed to x"
       ++ DQUOTE :: lit ")")
  = Some (match_of 12 (lit "Failed to x")) /\
  exists res,
    result (check_file
              (single_file demo_path
                 (lit "// return myfmt.Errorf(" ++ [DQUOTE]
                    ++ lit "Failed to x" ++ DQUOTE :: lit ")")) demo_path)
    = Val res /\
    entries_at 1 res =
      if startswith (lit "Failed to x") REQUIRED_WORDING then []
      else [entry 1 (lit "// return my" ++ CALL_OPEN ++ lit "Failed to x"
                       ++ DQUOTE :: lit ")")].
Proof.
  apply (call_after_plain_context_found
           (single_file demo_path
              (lit "// return myfmt.Errorf(" ++ [DQUOTE]
                 ++ lit "Failed to x" ++ DQUOTE :: lit ")"))
           demo_path
           (lit "// return myfmt.Errorf(" ++ [DQUOTE]
              ++ lit "Failed to x" ++ DQUOTE :: lit ")")
           0 (lit "// return my") (lit "Failed to x") (lit ")")).
  - absent.
  - discriminate.
  - absent.
  - reflexivity.
  - reflexivity.
Defined.

Lemma occurrence_contains (line : str) (pos : nat) (msg : str) :
  occurrence line pos msg -> contains line CALL_OPEN.
Proof.
  intros (pre & rest & -> & _). now exists pre, (msg ++ DQUOTE :: rest).
Qed.

(** X11. A readable file none of whose lines holds the text [fmt.Errorf(]
    followed at once by a double quote gives the empty result, and its turn
    in the run prints nothing. *)
Theorem no_call_no_entries (fs : str -> file) (path text : str) :
  fs path = File text None ->
  (forall line, In line (readlines text) -> ~ contains line CALL_OPEN) ->
  check_file fs path = ([Open path], Val []) /\
  forall out, trace (for_paths fs out [path] 0%N) = [Open path].
Proof.
  intros Hfs Hno.
  assert (entries_from 1 (readlines text) = []) as E.
  { apply entries_from_nil. intros line Hin. unfold violates.
    assert (search ERROR_PATTERN line = None) as ->; [|reflexivity].
    apply search_None. intros pos msg Ho.
    apply (Hno line Hin). eapply occurrence_contains; eauto. }
  pose proof (check_file_readable _ _ _ Hfs) as Hc. rewrite E in Hc.
  split; [exact Hc|]. intros out.
  rewrite for_paths_step, bind_val. unfold passes. rewrite Hc. reflexivity.
Qed.

Lemma no_call_no_entries_witness :
  check_file (single_file demo_path scenario_line3) demo_path
    = ([Open demo_path], Val []) /\
  forall out,
    trace (for_paths (single_file demo_path scenario_line3) out
             [demo_path] 0%N) = [Open demo_path].
Proof.
  apply (no_call_no_entries (single_file demo_path scenario_line3)
           demo_path scenario_line3).
  - reflexivity.
  - intros line [<-|[]] (a & b & E).
    apply (f_equal (@List.length _)) in E.
    rewrite !length_app in E. simpl in E. lia.
Defined.
